(** * tpool: a thread pool with a priority task queue

    A shallow embedding of [pool.py].  The [pool] object becomes a record
    with the fields the class assigns in [__init__]; every method becomes a
    computation in a small state-and-exception monad over that record.

    Threads.  The pool is shared, and the file describes it at two grains.
    At the coarse grain a method call, or one pass of a runner through the
    body of its inner loop, is one transition ([action], [step]): this is a
    call on which no other thread intrudes.  At the fine grain a call of
    [execute] is taken access by access ([call], [call_step]) and the
    accesses of several calls interleave with each other and with the
    coarse transitions ([event], [run_events]); the lock of [execute]
    covers the increment only, which is one access.  The places where the
    source suspends a thread are kept visible: a [put] into a full queue and
    a [get_return_value] whose polling has not ended yield [Waiting]; at the
    fine grain a call inside [put] goes on once the queue has room. *)

From Stdlib Require Import ZArith List Ascii Floats Sorted Permutation Lia.
From stdpp Require Import gmap strings list sorting.

Local Open Scope Z_scope.

(** ** Python values, exceptions and callables *)

(** The values a task may return.  Only the distinction between the string
    ["IN_PROGRESS"] and everything else matters to the pool. *)
Inductive pyval : Type :=
| PNone
| PBool (b : bool)
| PInt (z : Z)
| PStr (s : string).

Inductive exn : Type :=
| RuntimeError (msg : string)
| ValueError (msg : string)
| KeyError (key : Z)
| PyException (cls msg : string).

(** Numeric reading of [bool] and [int] (in Python [True == 1]). *)
Definition py_num (v : pyval) : option Z :=
  match v with
  | PBool b => Some (if b then 1 else 0)
  | PInt z => Some z
  | _ => None
  end.

(** Python's [==] on the modelled values. *)
Definition py_eq (a b : pyval) : bool :=
  match a, b with
  | PNone, PNone => true
  | PStr s, PStr t => String.eqb s t
  | _, _ =>
      match py_num a, py_num b with
      | Some x, Some y => x =? y
      | _, _ => false
      end
  end.

(** What calling a submitted function does. *)
Inductive outcome : Type :=
| Returns (v : pyval)
| Raises (e : exn).

(** A callable receives positional and keyword arguments. *)
Definition callable : Type := list pyval -> list (string * pyval) -> outcome.

(** ** The task queue *)

(** The tuple [(priority, task_id, func, args, kwargs)] put on the queue. *)
Record task : Type := mk_task {
  t_priority : Z;
  t_task_id : Z;
  t_function : callable;
  t_args : list pyval;
  t_kwargs : list (string * pyval)
}.

(** [queue.PriorityQueue(maxsize)]: the pending entries, oldest first, and
    the capacity ([maxsize <= 0] means unbounded). *)
Record PriorityQueue : Type := mk_queue {
  maxsize : Z;
  entries : list task
}.

(** Tuple comparison as far as the pool relies on it: priority first, then
    task identifier.  (Two entries that agree on both would make Python
    compare the callables; identifiers are unique, see [inv_ids_sorted].) *)
Definition task_lt (a b : task) : bool :=
  (t_priority a <? t_priority b)
  || ((t_priority a =? t_priority b) && (t_task_id a <? t_task_id b)).

Definition task_le (a b : task) : bool := negb (task_lt b a).

(** Smallest entry of [t :: q] together with the entries that stay. *)
Fixpoint pq_pop_min (t : task) (q : list task) : task * list task :=
  match q with
  | [] => (t, [])
  | u :: r =>
      let '(m, rest) := pq_pop_min u r in
      if task_lt m t then (m, t :: rest) else (t, u :: r)
  end.

(** [get(timeout=1)] once the timeout has passed: [None] is [queue.Empty]. *)
Definition pq_get (q : PriorityQueue) : option (task * PriorityQueue) :=
  match entries q with
  | [] => None
  | t :: r =>
      let '(m, rest) := pq_pop_min t r in
      Some (m, mk_queue (maxsize q) rest)
  end.

Definition pq_full (q : PriorityQueue) : bool :=
  (0 <? maxsize q) && (maxsize q <=? Z.of_nat (length (entries q))).

(** [put(item)]: [None] when the queue is full and the caller blocks. *)
Definition pq_put (q : PriorityQueue) (t : task) : option PriorityQueue :=
  if pq_full q then None else Some (mk_queue (maxsize q) (entries q ++ [t])).

(** ** The pool object *)

Record pool : Type := mk_pool {
  task_id : Z;
  task_queue : PriorityQueue;
  return_values : gmap Z pyval;
  number_of_threads : Z;
  stop_threads : bool
}.

Definition set_task_id (n : Z) (p : pool) : pool :=
  mk_pool n (task_queue p) (return_values p) (number_of_threads p)
          (stop_threads p).

Definition set_task_queue (q : PriorityQueue) (p : pool) : pool :=
  mk_pool (task_id p) q (return_values p) (number_of_threads p)
          (stop_threads p).

Definition set_return_values (m : gmap Z pyval) (p : pool) : pool :=
  mk_pool (task_id p) (task_queue p) m (number_of_threads p) (stop_threads p).

Definition set_stop_threads (b : bool) (p : pool) : pool :=
  mk_pool (task_id p) (task_queue p) (return_values p) (number_of_threads p) b.

(** [pool(number_of_threads, max_tasks)]; [None] is an omitted argument.
    The runner threads that [_start_thread_pool] starts act on the pool
    through the [RunnerPass] transitions below. *)
Definition new_pool (number_of_threads max_tasks : option Z) : pool :=
  mk_pool 0
          (mk_queue (default 256 max_tasks) [])
          ∅
          (default 2 number_of_threads)
          false.

(** ** The monad of method calls *)

Inductive result (A : Type) : Type :=
| Returned (a : A)
| Raised (e : exn)
| Waiting.

Arguments Returned {A} a.
Arguments Raised {A} e.
Arguments Waiting {A}.

Definition M (A : Type) : Type := pool -> pool * result A.

#[global] Instance M_ret : MRet M := fun A a p => (p, Returned a).

#[global] Instance M_bind : MBind M := fun A B f m p =>
  match m p with
  | (p', Returned a) => f a p'
  | (p', Raised e) => (p', Raised e)
  | (p', Waiting) => (p', Waiting)
  end.

Definition raise {A : Type} (e : exn) : M A := fun p => (p, Raised e).
Definition wait {A : Type} : M A := fun p => (p, Waiting).
Definition gets {A : Type} (f : pool -> A) : M A := fun p => (p, Returned (f p)).
Definition modify (f : pool -> pool) : M unit := fun p => (f p, Returned tt).

(** ** Methods *)

Definition dq : string := String "034"%char EmptyString.

Definition priority_error : string :=
  "Priority keyword argument must be " +:+ dq +:+ "ultra_low" +:+ dq +:+ ", "
  +:+ dq +:+ "low" +:+ dq +:+ ", " +:+ dq +:+ "normal" +:+ dq +:+ ", "
  +:+ dq +:+ "high" +:+ dq +:+ ", or " +:+ dq +:+ "ultra_high" +:+ dq.

Definition _to_numeric_priority (priority : pyval) : M Z :=
  if py_eq priority (PStr "ultra_low") then mret 4
  else if py_eq priority (PStr "low") then mret 3
  else if py_eq priority (PStr "normal") then mret 2
  else if py_eq priority (PStr "high") then mret 1
  else if py_eq priority (PStr "ultra_high") then mret 0
  else raise (ValueError priority_error).

Definition IN_PROGRESS : pyval := PStr "IN_PROGRESS".

Definition UNFINISHED : pyval :=
  PStr "UNFINISHED (timed out waiting for return value)".

Definition stopped_error : string :=
  "Can't execute new task with thread pool when it's stopped! self.stop_threads=True".

(** [self.task_queue.put(item)], the other threads standing still: on a full
    queue the caller is left waiting ([call_step] lets it go on once another
    thread has made room). *)
Definition queue_put (t : task) : M unit :=
  q ← gets task_queue;
  match pq_put q t with
  | Some q' => modify (set_task_queue q')
  | None => wait
  end.

(** [execute(func, *args, priority="normal", **kwargs)], the other threads
    standing still from its first statement to its return; [priority = None]
    is a call without the keyword.  [call_step] takes the same statements
    one access at a time. *)
Definition execute (func : callable) (args : list pyval)
    (priority : option pyval) (kwargs : list (string * pyval)) : M Z :=
  stopped ← gets stop_threads;
  if stopped : bool then raise (RuntimeError stopped_error)
  else
    modify (fun p => set_task_id (task_id p + 1) p);;
    rank ← _to_numeric_priority (default (PStr "normal") priority);
    tid ← gets task_id;
    queue_put (mk_task rank tid func args kwargs);;
    tid ← gets task_id;
    modify (fun p => set_return_values (<[tid := IN_PROGRESS]> (return_values p)) p);;
    gets task_id.

(** [self.return_values[task_id]]. *)
Definition lookup_return_value (tid : Z) : M pyval :=
  m ← gets return_values;
  match m !! tid with
  | Some v => mret v
  | None => raise (KeyError tid)
  end.

Definition is_task_in_progress (tid : Z) : M bool :=
  v ← lookup_return_value tid;
  mret (py_eq v IN_PROGRESS).

(** [self.return_values.pop(task_id)]. *)
Definition pop_return_value (tid : Z) : M pyval :=
  v ← lookup_return_value tid;
  modify (fun p => set_return_values (delete tid (return_values p)) p);;
  mret v.

Definition stop : M unit := modify (set_stop_threads true).

(** The four ways [_run] calls the function, chosen by the truth value of
    [args] and [kwargs]. *)
Definition invoke (t : task) : outcome :=
  match t_args t, t_kwargs t with
  | _ :: _, _ :: _ => t_function t (t_args t) (t_kwargs t)
  | _ :: _, [] => t_function t (t_args t) []
  | [], _ :: _ => t_function t [] (t_kwargs t)
  | [], [] => t_function t [] []
  end.

(** How one pass through the inner loop of [_run] ends. *)
Inductive pass : Type :=
| Continue
| Return.

(** One pass of the inner [while True] loop of [_run]. *)
Definition runner_pass : M pass :=
  q ← gets task_queue;
  match pq_get q with
  | None =>
      stopped ← gets stop_threads;
      if stopped : bool then mret Return else mret Continue
  | Some (t, q') =>
      modify (set_task_queue q');;
      match invoke t with
      | Returns v =>
          modify (fun p =>
            set_return_values (<[t_task_id t := v]> (return_values p)) p);;
          mret Continue
      | Raises e => raise e
      end
  end.

(** [_run] with no other thread acting: the inner loop, [fuel] passes long.
    A runner that finds the queue empty while the pool is not stopped keeps
    waiting, which is what running out of passes stands for. *)
Fixpoint _run_loop (fuel : nat) : M unit :=
  match fuel with
  | O => wait
  | S n =>
      r ← runner_pass;
      match r with
      | Return => mret tt
      | Continue => _run_loop n
      end
  end.

Definition _run : M unit :=
  stopped ← gets stop_threads;
  if stopped : bool then mret tt
  else
    q ← gets task_queue;
    _run_loop (S (length (entries q))).

(** The body of [get_return_value] at one test of its loop condition when no
    sleep follows: the entry is popped if the task is no longer in progress. *)
Definition retrieve (tid : Z) : M pyval :=
  busy ← is_task_in_progress tid;
  if busy : bool then wait else pop_return_value tid.

(** ** Transitions of the shared pool *)

(** What a thread can do to the pool in one atomic transition: a client
    submits or stops, a runner makes one pass of its loop, a client waiting
    in [get_return_value] tests the entry. *)
Inductive action : Type :=
| Execute (func : callable) (args : list pyval) (priority : option pyval)
          (kwargs : list (string * pyval))
| Stop
| RunnerPass
| Retrieve (tid : Z).

Definition step (a : action) (p : pool) : pool :=
  match a with
  | Execute func args priority kwargs => fst (execute func args priority kwargs p)
  | Stop => fst (stop p)
  | RunnerPass => fst (runner_pass p)
  | Retrieve tid => fst (retrieve tid p)
  end.

Fixpoint run_actions (acts : list action) (p : pool) : pool :=
  match acts with
  | [] => p
  | a :: rest => run_actions rest (step a p)
  end.

(** The pools a program can reach from a freshly constructed one. *)
Definition reachable (p : pool) : Prop :=
  exists (n m : option Z) (acts : list action), p = run_actions acts (new_pool n m).

Definition is_execute (a : action) : bool :=
  match a with
  | Execute _ _ _ _ => true
  | _ => false
  end.

(** The identifiers the [execute] calls of a run return, in call order. *)
Fixpoint submitted_ids (acts : list action) (p : pool) : list Z :=
  match acts with
  | [] => []
  | a :: rest =>
      let ids := submitted_ids rest (step a p) in
      match a with
      | Execute func args priority kwargs =>
          match snd (execute func args priority kwargs p) with
          | Returned i => i :: ids
          | _ => ids
          end
      | _ => ids
      end
  end.

(** ** Waiting for a return value *)

(** The increment of the timer, the binary64 number nearest to 0.1. *)
Definition tick : float := 0x1.999999999999ap-4%float.

(** [time.sleep(0.1)]: the other threads run; [others] is what they do. *)
Definition sleep (others : list action) : M unit := modify (run_actions others).

(** The loop of [get_return_value] and the pop after it.  [sched] lists, for
    each sleep of the caller, the transitions of the other threads during
    it; when it is used up the caller is still waiting. *)
Fixpoint poll (tid : Z) (timeout timer : float) (sched : list (list action))
    : M pyval :=
  busy ← is_task_in_progress tid;
  if busy : bool then
    match sched with
    | [] => wait
    | others :: sched' =>
        sleep others;;
        let timer := (timer + tick)%float in
        if (timeout <? timer)%float then mret UNFINISHED
        else poll tid timeout timer sched'
    end
  else pop_return_value tid.

(** [get_return_value(task_id, timeout=86400)].  The timeout is a binary64
    number, as the timer is; [None] is a call without the argument. *)
Definition get_return_value (tid : Z) (timeout : option float)
    (sched : list (list action)) : M pyval :=
  poll tid (default 86400%float timeout) 0%float sched.

(** The timer after [n] sleeps. *)
Fixpoint timer_after (n : nat) : float :=
  match n with
  | O => 0%float
  | S k => (timer_after k + tick)%float
  end.

(** The pool after the other threads' transitions of the first [n] sleeps. *)
Definition after_sleeps (n : nat) (sched : list (list action)) (p : pool) : pool :=
  run_actions (concat (take n sched)) p.

(** ** Draining the queue *)

(** The order in which [fuel] successive [get] calls hand out the entries. *)
Fixpoint drain (fuel : nat) (q : PriorityQueue) : list task :=
  match fuel with
  | O => []
  | S n =>
      match pq_get q with
      | None => []
      | Some (t, q') => t :: drain n q'
      end
  end.

Definition dequeue_order (q : PriorityQueue) : list task :=
  drain (length (entries q)) q.

(** Stable insertion sort by (priority rank, identifier). *)
Fixpoint insert_task (t : task) (l : list task) : list task :=
  match l with
  | [] => [t]
  | u :: r => if task_le t u then t :: u :: r else u :: insert_task t r
  end.

Fixpoint sort_tasks (l : list task) : list task :=
  match l with
  | [] => []
  | t :: r => insert_task t (sort_tasks r)
  end.

(** ** Specification-side notions *)

(** The five priority keywords and their ranks. *)
Definition priority_table : list (string * Z) :=
  [("ultra_high", 0); ("high", 1); ("normal", 2); ("low", 3); ("ultra_low", 4)].

Fixpoint assoc (s : string) (l : list (string * Z)) : option Z :=
  match l with
  | [] => None
  | (k, v) :: r => if String.eqb s k then Some v else assoc s r
  end.

(** The rank of a priority argument according to the table. *)
Definition rank_of (priority : pyval) : option Z :=
  match priority with
  | PStr s => assoc s priority_table
  | _ => None
  end.

Definition queue_ids (p : pool) : list Z :=
  map t_task_id (entries (task_queue p)).

(** [a] leaves the queue before [b]: lower rank first, and within a rank the
    lower identifier first. *)
Definition dequeued_before (a b : task) : Prop :=
  t_priority a < t_priority b
  \/ (t_priority a = t_priority b /\ t_task_id a < t_task_id b).

(** The entry of [tid] is marked in progress although no pending task
    carries that identifier. *)
Definition stuck (tid : Z) (p : pool) : Prop :=
  return_values p !! tid = Some IN_PROGRESS /\ tid ∉ queue_ids p.

(** The identifier [tid] was allocated and has no entry. *)
Definition consumed (tid : Z) (p : pool) : Prop :=
  return_values p !! tid = None /\ tid <= task_id p.

(** What holds of every reachable pool: pending identifiers are unique and
    listed in submission order, no identifier exceeds the counter, and every
    pending task is marked in progress. *)
Record inv (p : pool) : Prop := mk_inv {
  inv_ids_sorted : StronglySorted Z.lt (queue_ids p);
  inv_ids_bound : Forall (fun i => i <= task_id p) (queue_ids p);
  inv_keys_bound : forall k, is_Some (return_values p !! k) -> k <= task_id p;
  inv_pending :
    Forall (fun i => return_values p !! i = Some IN_PROGRESS) (queue_ids p)
}.

(** ** Notions for the properties of whole runs *)

Definition is_stop (a : action) : bool :=
  match a with
  | Stop => true
  | _ => false
  end.

(** The [execute] calls of a run that are made before its first [stop]. *)
Fixpoint allocations (acts : list action) : nat :=
  match acts with
  | [] => O
  | Stop :: _ => O
  | Execute _ _ _ _ :: rest => S (allocations rest)
  | _ :: rest => allocations rest
  end.

(** What a runner leaves in the result store for one task, and for a list of
    tasks executed from left to right. *)
Definition store_result (m : gmap Z pyval) (t : task) : gmap Z pyval :=
  match invoke t with
  | Returns v => <[t_task_id t := v]> m
  | Raises _ => m
  end.

Definition store_results (l : list task) (m : gmap Z pyval) : gmap Z pyval :=
  foldl store_result m l.

Definition returns (t : task) : Prop := exists v, invoke t = Returns v.

(** Bounds that hold of every pool a run from [new_pool n m] reaches. *)
Record bounds (n m : option Z) (p : pool) : Prop := mk_bounds {
  bounds_counter : 0 <= task_id p;
  bounds_keys : forall k, is_Some (return_values p !! k) -> 1 <= k;
  bounds_ranks :
    Forall (fun t => 0 <= t_priority t <= 4) (entries (task_queue p));
  bounds_maxsize : maxsize (task_queue p) = default 256 m;
  bounds_threads : number_of_threads p = default 2 n;
  bounds_capacity :
    0 < maxsize (task_queue p) ->
    Z.of_nat (length (entries (task_queue p))) <= maxsize (task_queue p)
}.

(** ** A call of [execute], statement by statement *)

(** Where a call of [execute] stands between two of its accesses to the
    pool.  The lock is held for the increment only; the tuple for [put],
    the key of the marker and the returned value each read [self.task_id]
    anew, and [put] comes before the marker is stored. *)
Inductive call : Type :=
| AtCheck (func : callable) (args : list pyval) (priority : option pyval)
          (kwargs : list (string * pyval))
| AtIncrement (func : callable) (args : list pyval) (priority : option pyval)
              (kwargs : list (string * pyval))
| AtTuple (func : callable) (args : list pyval) (priority : option pyval)
          (kwargs : list (string * pyval))
| AtPut (t : task)
| AtMark
| AtStore (i : Z)
| AtReturn
| CallReturned (i : Z)
| CallRaised (e : exn).

(** The next access of a call: the test of the flag, the increment under
    the lock, the tuple (rank and identifier read), [put] once the queue has
    room, the read of the key of the marker, the store of the marker, the
    read of the value returned.  A call inside [put] on a full queue stays
    where it is. *)
Definition call_step (c : call) (p : pool) : pool * call :=
  match c with
  | AtCheck func args priority kwargs =>
      if stop_threads p then (p, CallRaised (RuntimeError stopped_error))
      else (p, AtIncrement func args priority kwargs)
  | AtIncrement func args priority kwargs =>
      (set_task_id (task_id p + 1) p, AtTuple func args priority kwargs)
  | AtTuple func args priority kwargs =>
      match _to_numeric_priority (default (PStr "normal") priority) p with
      | (p', Returned rank) =>
          (p', AtPut (mk_task rank (task_id p') func args kwargs))
      | (p', Raised e) => (p', CallRaised e)
      | (p', Waiting) => (p', c)
      end
  | AtPut t =>
      match pq_put (task_queue p) t with
      | Some q' => (set_task_queue q' p, AtMark)
      | None => (p, AtPut t)
      end
  | AtMark => (p, AtStore (task_id p))
  | AtStore i =>
      (set_return_values (<[i := IN_PROGRESS]> (return_values p)) p, AtReturn)
  | AtReturn => (p, CallReturned (task_id p))
  | CallReturned _ | CallRaised _ => (p, c)
  end.

(** [n] accesses of a call in a row, no other thread acting. *)
Fixpoint call_run (n : nat) (c : call) (p : pool) : pool * call :=
  match n with
  | O => (p, c)
  | S k => let '(p', c') := call_step c p in call_run k c' p'
  end.

(** The pool together with the calls of [execute] that client threads have
    begun, in the order in which they began. *)
Record system : Type := mk_system {
  sys_pool : pool;
  sys_calls : list call
}.

(** One move of one thread: a client enters [execute], the call numbered
    [c] makes its next access, or a thread makes a transition of the kind
    above (a runner pass, [stop], a retrieval, or a whole call of [execute]
    on which no other thread intrudes). *)
Inductive event : Type :=
| Begin (func : callable) (args : list pyval) (priority : option pyval)
        (kwargs : list (string * pyval))
| Advance (c : nat)
| Act (a : action).

Definition sys_step (e : event) (s : system) : system :=
  match e with
  | Begin func args priority kwargs =>
      mk_system (sys_pool s) (sys_calls s ++ [AtCheck func args priority kwargs])
  | Advance c =>
      match sys_calls s !! c with
      | Some cl =>
          let '(p', cl') := call_step cl (sys_pool s) in
          mk_system p' (<[c := cl']> (sys_calls s))
      | None => s
      end
  | Act a => mk_system (step a (sys_pool s)) (sys_calls s)
  end.

Fixpoint run_events (evs : list event) (s : system) : system :=
  match evs with
  | [] => s
  | e :: rest => run_events rest (sys_step e s)
  end.

Definition new_system (n m : option Z) : system := mk_system (new_pool n m) [].

(** Moves that leave the call numbered [c] to itself as far as identifiers
    go: its own accesses, clients entering, runner passes, [stop], and
    retrievals of identifiers up to [t0]. *)
Definition undisturbed (c : nat) (t0 : Z) (e : event) : Prop :=
  match e with
  | Begin _ _ _ _ => True
  | Advance c' => c' = c
  | Act RunnerPass | Act Stop => True
  | Act (Retrieve k) => k <= t0
  | Act (Execute _ _ _ _) => False
  end.

(** What a call begun at counter [t0] has secured: the counter is above
    [t0] once it has incremented, and from the store of the marker on the
    entry whose key it reads satisfies [P]. *)
Definition secured (P : option pyval -> Prop) (t0 : Z) (cl : call) (p : pool)
    : Prop :=
  match cl with
  | AtCheck _ _ _ _ | AtIncrement _ _ _ _ => t0 <= task_id p
  | AtTuple _ _ _ _ | AtPut _ | AtMark => t0 < task_id p
  | AtStore j => j = task_id p /\ t0 < j
  | AtReturn => t0 < task_id p /\ P (return_values p !! task_id p)
  | CallReturned i => t0 < i /\ P (return_values p !! i)
  | CallRaised _ => True
  end.

(** The call cannot store under [tid] any more, neither a marker nor,
    through a task it queues, a result. *)
Definition calm (tid : Z) (p : pool) (cl : call) : Prop :=
  match cl with
  | AtTuple _ _ _ _ | AtMark => task_id p <> tid
  | AtPut t => t_task_id t <> tid /\ task_id p <> tid
  | AtStore j => j <> tid
  | _ => True
  end.

(** No pending task and no call under way can store under [tid]. *)
Definition settled (tid : Z) (s : system) : Prop :=
  tid <= task_id (sys_pool s)
  /\ (tid ∉ queue_ids (sys_pool s))
  /\ Forall (calm tid (sys_pool s)) (sys_calls s).

(** Bounds on what a call holds, and on the pool, under any interleaving. *)
Definition call_in_range (p : pool) (cl : call) : Prop :=
  match cl with
  | AtCheck _ _ _ _ | AtIncrement _ _ _ _ | CallRaised _ => True
  | AtTuple _ _ _ _ | AtMark | AtReturn => 1 <= task_id p
  | AtPut t => 1 <= t_task_id t <= task_id p /\ 0 <= t_priority t <= 4
  | AtStore j => 1 <= j <= task_id p
  | CallReturned i => 1 <= i <= task_id p
  end.

Definition pool_in_range (p : pool) : Prop :=
  0 <= task_id p
  /\ (forall k, is_Some (return_values p !! k) -> 1 <= k <= task_id p)
  /\ Forall (fun t => 1 <= t_task_id t <= task_id p /\ 0 <= t_priority t <= 4)
        (entries (task_queue p)).

(** What a call begun at counter [t0] is bound to return, whatever the
    other threads do: once it has incremented the counter is above [t0]. *)
Definition above (t0 : Z) (cl : call) (p : pool) : Prop :=
  match cl with
  | AtCheck _ _ _ _ | AtIncrement _ _ _ _ => t0 <= task_id p
  | AtTuple _ _ _ _ | AtPut _ | AtMark | AtStore _ | AtReturn => t0 < task_id p
  | CallReturned i => t0 < i
  | CallRaised _ => True
  end.

(** ** Sample runs *)

Module Samples.

Definition noop : callable := fun _ _ => Returns PNone.
Definition add : callable := fun args _ =>
  match args with
  | [PInt a; PInt b] => Returns (PInt (a + b))
  | _ => Raises (PyException "TypeError" "unsupported operand")
  end.
Definition boom : callable := fun _ _ => Raises (PyException "ZeroDivisionError" "division by zero").
Definition echo : callable := fun _ _ => Returns IN_PROGRESS.

Definition fresh : pool := new_pool None None.

Definition five : list action :=
  [ Execute noop [] (Some (PStr "low")) [];
    Execute noop [] (Some (PStr "high")) [];
    Execute noop [] (Some (PStr "normal")) [];
    Execute noop [] (Some (PStr "ultra_high")) [];
    Execute noop [] (Some (PStr "low")) [] ].

End Samples.

Example five_ids : submitted_ids Samples.five Samples.fresh = [1; 2; 3; 4; 5].
Proof. reflexivity. Qed.

Example five_dequeue :
  map t_task_id (dequeue_order (task_queue (run_actions Samples.five Samples.fresh)))
  = [4; 2; 3; 1; 5].
Proof. reflexivity. Qed.

Example add_2_3 :
  let p1 := step (Execute Samples.add [PInt 2; PInt 3] None []) Samples.fresh in
  let p2 := step RunnerPass p1 in
  snd (get_return_value 1 None [] p2) = Returned (PInt 5).
Proof. reflexivity. Qed.

Example timer_3 : (0.25 <? timer_after 3)%float = true.
Proof. reflexivity. Qed.

(** * Properties *)

(** ** Unfolding the monad *)

Ltac unfold_M :=
  unfold mbind, M_bind, mret, M_ret, raise, wait, gets, modify in *.

Lemma bind_Returned {A B : Type} (m : M A) (f : A -> M B) (p p' : pool) (a : A) :
  m p = (p', Returned a) -> (m ≫= f) p = f a p'.
Proof. intros H. unfold mbind, M_bind. now rewrite H. Qed.

Lemma bind_Raised {A B : Type} (m : M A) (f : A -> M B) (p p' : pool) (e : exn) :
  m p = (p', Raised e) -> (m ≫= f) p = (p', Raised e).
Proof. intros H. unfold mbind, M_bind. now rewrite H. Qed.

Lemma bind_Waiting {A B : Type} (m : M A) (f : A -> M B) (p p' : pool) :
  m p = (p', Waiting) -> (m ≫= f) p = (p', Waiting).
Proof. intros H. unfold mbind, M_bind. now rewrite H. Qed.

(** ** Priorities *)

Lemma py_eq_PStr (v : pyval) (s : string) :
  py_eq v (PStr s) = match v with PStr t => String.eqb t s | _ => false end.
Proof. destruct v as [| [] | |]; reflexivity. Qed.

Lemma to_numeric_priority_rank_of (v : pyval) (p : pool) :
  _to_numeric_priority v p =
  match rank_of v with
  | Some r => (p, Returned r)
  | None => (p, Raised (ValueError priority_error))
  end.
Proof.
  unfold _to_numeric_priority. rewrite !py_eq_PStr.
  destruct v as [| b | z | s]; try reflexivity.
  unfold rank_of, priority_table, assoc.
  destruct (String.eqb_spec s "ultra_low") as [->|]; [reflexivity|].
  destruct (String.eqb_spec s "low") as [->|]; [reflexivity|].
  destruct (String.eqb_spec s "normal") as [->|]; [reflexivity|].
  destruct (String.eqb_spec s "high") as [->|]; [reflexivity|].
  destruct (String.eqb_spec s "ultra_high") as [->|]; reflexivity.
Qed.

Lemma assoc_In (s : string) (r : Z) :
  assoc s priority_table = Some r <-> In (s, r) priority_table.
Proof.
  unfold priority_table. simpl. split.
  - repeat match goal with
           | |- context [String.eqb s ?k] =>
               destruct (String.eqb_spec s k) as [->|]; [intros [= <-]; tauto|]
           end.
    discriminate.
  - intros H. repeat (destruct H as [[= <- <-]|H]; [reflexivity|]). destruct H.
Qed.

(** ** [execute], case by case *)

Lemma execute_unfold (func : callable) (args : list pyval)
    (priority : option pyval) (kwargs : list (string * pyval)) (p : pool) :
  execute func args priority kwargs p =
  if stop_threads p then (p, Raised (RuntimeError stopped_error))
  else
    let n := task_id p + 1 in
    match rank_of (default (PStr "normal") priority) with
    | None => (set_task_id n p, Raised (ValueError priority_error))
    | Some r =>
        if pq_full (task_queue p) then (set_task_id n p, Waiting)
        else
          (mk_pool n
             (mk_queue (maxsize (task_queue p))
                (entries (task_queue p) ++ [mk_task r n func args kwargs]))
             (<[n := IN_PROGRESS]> (return_values p))
             (number_of_threads p) false,
           Returned n)
    end.
Proof.
  unfold execute, queue_put, pq_put. unfold_M.
  destruct (stop_threads p) eqn:Hs; [reflexivity|].
  rewrite to_numeric_priority_rank_of.
  destruct (rank_of _) as [r|]; [|reflexivity].
  cbn. destruct (pq_full (task_queue p)); [reflexivity|].
  cbn. unfold set_return_values, set_task_queue, set_task_id. cbn.
  now rewrite Hs.
Qed.

(** ** The other methods, case by case *)

Lemma is_task_in_progress_unfold (tid : Z) (p : pool) :
  is_task_in_progress tid p =
  match return_values p !! tid with
  | None => (p, Raised (KeyError tid))
  | Some v => (p, Returned (py_eq v IN_PROGRESS))
  end.
Proof.
  unfold is_task_in_progress, lookup_return_value. unfold_M.
  now destruct (return_values p !! tid).
Qed.

Lemma pop_return_value_unfold (tid : Z) (p : pool) :
  pop_return_value tid p =
  match return_values p !! tid with
  | None => (p, Raised (KeyError tid))
  | Some v => (set_return_values (delete tid (return_values p)) p, Returned v)
  end.
Proof.
  unfold pop_return_value, lookup_return_value. unfold_M.
  now destruct (return_values p !! tid).
Qed.

Lemma retrieve_unfold (tid : Z) (p : pool) :
  retrieve tid p =
  match return_values p !! tid with
  | None => (p, Raised (KeyError tid))
  | Some v =>
      if py_eq v IN_PROGRESS then (p, Waiting)
      else (set_return_values (delete tid (return_values p)) p, Returned v)
  end.
Proof.
  unfold retrieve.
  destruct (return_values p !! tid) as [v|] eqn:Hv.
  - erewrite bind_Returned
      by (rewrite is_task_in_progress_unfold, Hv; reflexivity).
    destruct (py_eq v IN_PROGRESS); [reflexivity|].
    now rewrite pop_return_value_unfold, Hv.
  - erewrite bind_Raised
      by (rewrite is_task_in_progress_unfold, Hv; reflexivity).
    reflexivity.
Qed.

Lemma poll_unfold (tid : Z) (timeout timer : float)
    (sched : list (list action)) (p : pool) :
  poll tid timeout timer sched p =
  match return_values p !! tid with
  | None => (p, Raised (KeyError tid))
  | Some v =>
      if py_eq v IN_PROGRESS then
        match sched with
        | [] => (p, Waiting)
        | others :: sched' =>
            if (timeout <? timer + tick)%float
            then (run_actions others p, Returned UNFINISHED)
            else poll tid timeout (timer + tick)%float sched'
                   (run_actions others p)
        end
      else (set_return_values (delete tid (return_values p)) p, Returned v)
  end.
Proof.
  destruct sched as [|others sched']; simpl;
    (destruct (return_values p !! tid) as [v|] eqn:Hv;
     [ erewrite bind_Returned
         by (rewrite is_task_in_progress_unfold, Hv; reflexivity)
     | erewrite bind_Raised
         by (rewrite is_task_in_progress_unfold, Hv; reflexivity);
       reflexivity ]);
    (destruct (py_eq v IN_PROGRESS);
     [|now rewrite pop_return_value_unfold, Hv]).
  - reflexivity.
  - unfold sleep. unfold_M. now destruct (timeout <? timer + tick)%float.
Qed.

Lemma runner_pass_unfold (p : pool) :
  runner_pass p =
  match pq_get (task_queue p) with
  | None => (p, Returned (if stop_threads p then Return else Continue))
  | Some (t, q') =>
      match invoke t with
      | Returns v =>
          (mk_pool (task_id p) q' (<[t_task_id t := v]> (return_values p))
             (number_of_threads p) (stop_threads p),
           Returned Continue)
      | Raises e => (set_task_queue q' p, Raised e)
      end
  end.
Proof.
  unfold runner_pass. unfold_M.
  destruct (pq_get (task_queue p)) as [[t q']|].
  - cbn. now destruct (invoke t).
  - now destruct (stop_threads p).
Qed.

(** ** The queue hands out a smallest entry *)

Lemma pq_pop_min_split (t : task) (q : list task) (m : task) (rest : list task) :
  pq_pop_min t q = (m, rest) ->
  exists l1 l2, t :: q = l1 ++ m :: l2 /\ rest = l1 ++ l2.
Proof.
  revert t m rest. induction q as [|u r IH]; intros t m rest; simpl.
  - intros [= <- <-]. now exists [], [].
  - destruct (pq_pop_min u r) as [m' rest'] eqn:Hp.
    destruct (IH _ _ _ Hp) as (l1 & l2 & Hq & Hrest).
    destruct (task_lt m' t); intros [= <- <-].
    + exists (t :: l1), l2. rewrite Hq, Hrest. now split.
    + now exists [], (u :: r).
Qed.

Lemma pq_get_split (q : PriorityQueue) (t : task) (q' : PriorityQueue) :
  pq_get q = Some (t, q') ->
  maxsize q' = maxsize q /\
  exists l1 l2, entries q = l1 ++ t :: l2 /\ entries q' = l1 ++ l2.
Proof.
  unfold pq_get. destruct (entries q) as [|u r] eqn:He; [discriminate|].
  destruct (pq_pop_min u r) as [m rest] eqn:Hp. intros [= <- <-].
  split; [reflexivity|]. exact (pq_pop_min_split _ _ _ _ Hp).
Qed.

(** ** The invariant of reachable pools *)

Lemma py_eq_IN_PROGRESS (v : pyval) : py_eq v IN_PROGRESS = true <-> v = IN_PROGRESS.
Proof.
  unfold IN_PROGRESS. rewrite py_eq_PStr. destruct v as [| b | z | s]; try easy.
  destruct (String.eqb_spec s "IN_PROGRESS") as [->|Hne]; [easy|].
  split; [discriminate|]. intros [= ->]. now destruct Hne.
Qed.

Lemma sorted_remove (l1 l2 : list Z) (x : Z) :
  StronglySorted Z.lt (l1 ++ x :: l2) ->
  StronglySorted Z.lt (l1 ++ l2) /\ x ∉ l1 ++ l2.
Proof.
  rewrite StronglySorted_app, StronglySorted_cons, Forall_forall.
  intros (H12 & H1 & Hx & H2). split.
  - apply StronglySorted_app_2; [|assumption..].
    intros a b Ha Hb. apply H12; [assumption|]. now apply list_elem_of_further.
  - rewrite elem_of_app. intros [Hin|Hin].
    + specialize (H12 x x Hin (list_elem_of_here x l2)). lia.
    + specialize (Hx x Hin). lia.
Qed.

Lemma inv_new_pool (n m : option Z) : inv (new_pool n m).
Proof.
  split; cbn.
  - constructor.
  - constructor.
  - intros k [v Hv]. now rewrite lookup_empty in Hv.
  - constructor.
Qed.

Lemma inv_set_task_id (p : pool) : inv p -> inv (set_task_id (task_id p + 1) p).
Proof.
  intros [Hs Hb Hk Hp]. split; cbn; try assumption.
  - eapply Forall_impl; [exact Hb|]. cbn. intros. lia.
  - intros k Hk'. specialize (Hk k Hk'). lia.
Qed.

Lemma inv_execute (func : callable) (args : list pyval)
    (priority : option pyval) (kwargs : list (string * pyval)) (p : pool) :
  inv p -> inv (fst (execute func args priority kwargs p)).
Proof.
  intros Hinv. rewrite execute_unfold.
  destruct (stop_threads p); [exact Hinv|]. cbn zeta.
  destruct (rank_of _) as [r|]; [|now apply inv_set_task_id].
  destruct (pq_full _); [now apply inv_set_task_id|].
  destruct Hinv as [Hs Hb Hk Hp]. unfold queue_ids in *.
  split; unfold queue_ids; cbn; rewrite ?map_app; cbn.
  - apply StronglySorted_app_2; [|assumption|repeat constructor].
    intros a b Ha Hb'. apply list_elem_of_singleton in Hb' as ->.
    rewrite Forall_forall in Hb. specialize (Hb a Ha). lia.
  - apply Forall_app. split.
    + eapply Forall_impl; [exact Hb|]. cbn. intros. lia.
    + repeat constructor. lia.
  - intros k. rewrite lookup_insert. case_decide; [lia|].
    intros Hk'. specialize (Hk k Hk'). lia.
  - apply Forall_app. split.
    + rewrite Forall_forall in *. intros i Hi.
      rewrite lookup_insert_ne; [now apply Hp|].
      specialize (Hb i Hi). lia.
    + repeat constructor. now rewrite lookup_insert_eq.
Qed.

Lemma inv_runner_pass (p : pool) : inv p -> inv (fst (runner_pass p)).
Proof.
  intros Hinv. rewrite runner_pass_unfold.
  destruct (pq_get (task_queue p)) as [[t q']|] eqn:Hg; [|exact Hinv].
  destruct (pq_get_split _ _ _ Hg) as (_ & l1 & l2 & He & He').
  destruct Hinv as [Hs Hb Hk Hp]. unfold queue_ids in *.
  rewrite He, map_app in Hs, Hb, Hp. cbn in Hs, Hb, Hp.
  destruct (sorted_remove _ _ _ Hs) as [Hs' Hnotin].
  apply Forall_app in Hb as [Hb1 Hb2]. apply Forall_cons in Hb2 as [Hbt Hb2].
  apply Forall_app in Hp as [Hp1 Hp2]. apply Forall_cons in Hp2 as [Hpt Hp2].
  assert (Hb' : Forall (fun i => i <= task_id p) (map t_task_id l1 ++ map t_task_id l2))
    by now apply Forall_app.
  assert (Hp' : Forall (fun i => return_values p !! i = Some IN_PROGRESS)
                  (map t_task_id l1 ++ map t_task_id l2))
    by now apply Forall_app.
  destruct (invoke t) as [v|e]; split; unfold queue_ids; cbn;
    rewrite ?He', ?map_app; try assumption.
  - intros k. rewrite lookup_insert.
    destruct (decide (t_task_id t = k)) as [<-|Hne]; [now intros _|apply Hk].
  - rewrite Forall_forall in *. intros i Hi.
    rewrite lookup_insert_ne; [now apply Hp'|]. intros Heq. subst i.
    now apply Hnotin.
Qed.

Lemma inv_retrieve (tid : Z) (p : pool) : inv p -> inv (fst (retrieve tid p)).
Proof.
  intros Hinv. rewrite retrieve_unfold.
  destruct (return_values p !! tid) as [v|] eqn:Hv; [|exact Hinv].
  destruct (py_eq v IN_PROGRESS) eqn:Hpy; [exact Hinv|].
  destruct Hinv as [Hs Hb Hk Hp].
  split; unfold queue_ids in *; cbn; try assumption.
  - intros k. rewrite lookup_delete. case_decide; [now intros [? ?]|apply Hk].
  - rewrite Forall_forall in *. intros i Hi.
    rewrite lookup_delete_ne; [now apply Hp|]. intros <-.
    specialize (Hp _ Hi). rewrite Hv in Hp. injection Hp as ->.
    now rewrite (proj2 (py_eq_IN_PROGRESS _) eq_refl) in Hpy.
Qed.

Lemma inv_step (a : action) (p : pool) : inv p -> inv (step a p).
Proof.
  destruct a; cbn [step].
  - apply inv_execute.
  - intros [Hs Hb Hk Hp]. now split.
  - apply inv_runner_pass.
  - apply inv_retrieve.
Qed.

Lemma inv_run_actions (acts : list action) (p : pool) :
  inv p -> inv (run_actions acts p).
Proof.
  revert p. induction acts as [|a rest IH]; intros p Hinv; cbn; [assumption|].
  now apply IH, inv_step.
Qed.

Lemma inv_reachable (p : pool) : reachable p -> inv p.
Proof.
  intros (n & m & acts & ->). apply inv_run_actions, inv_new_pool.
Qed.

(** ** The stop flag *)

Lemma stop_threads_step (a : action) (p : pool) :
  stop_threads p = true -> stop_threads (step a p) = true.
Proof.
  intros Hs. destruct a; cbn [step].
  - rewrite execute_unfold, Hs. exact Hs.
  - reflexivity.
  - rewrite runner_pass_unfold.
    destruct (pq_get _) as [[t q']|]; [|exact Hs].
    now destruct (invoke t).
  - rewrite retrieve_unfold.
    destruct (return_values p !! tid) as [v|]; [|exact Hs].
    now destruct (py_eq v IN_PROGRESS).
Qed.

Lemma stop_threads_run_actions (acts : list action) (p : pool) :
  stop_threads p = true -> stop_threads (run_actions acts p) = true.
Proof.
  revert p. induction acts as [|a rest IH]; intros p Hs; cbn; [assumption|].
  now apply IH, stop_threads_step.
Qed.

(** ** Claims about [execute] *)


(** C8.  Once the stop flag is set, and so in every state that follows a
    call of [stop], [execute] raises [RuntimeError] at once: the pool it
    leaves is the pool it found, so no identifier is allocated and neither
    the queue nor the result store is touched. *)
Theorem execute_after_stop (p : pool) (func : callable) (args : list pyval)
    (priority : option pyval) (kwargs : list (string * pyval)) :
  (stop_threads p = true
   \/ exists p0 acts, p = run_actions acts (fst (stop p0))) ->
  execute func args priority kwargs p = (p, Raised (RuntimeError stopped_error)).
Proof.
  intros H.
  assert (Hs : stop_threads p = true).
  { destruct H as [H|(p0 & acts & ->)]; [assumption|].
    now apply stop_threads_run_actions. }
  now rewrite execute_unfold, Hs.
Qed.

Lemma execute_after_stop_witness :
  let p := run_actions [RunnerPass] (fst (stop Samples.fresh)) in
  (stop_threads p = true
   \/ exists p0 acts, p = run_actions acts (fst (stop p0)))
  /\ execute Samples.noop [] (Some (PStr "high")) [] p
     = (p, Raised (RuntimeError stopped_error)).
Proof.
  split; [left; reflexivity|].
  apply (execute_after_stop
           (run_actions [RunnerPass] (fst (stop Samples.fresh)))).
  left. reflexivity.
Defined.

(** C1, as the code has it.  In a pool that is not stopped, [execute] with a
    priority outside the five keywords raises [ValueError] and leaves the
    task queue, the result store and the stop flag as they were. *)
Theorem execute_unknown_priority (p : pool) (func : callable)
    (args : list pyval) (priority : pyval) (kwargs : list (string * pyval)) :
  stop_threads p = false ->
  (forall s r, In (s, r) priority_table -> priority <> PStr s) ->
  exists p',
    execute func args (Some priority) kwargs p
    = (p', Raised (ValueError priority_error))
    /\ task_queue p' = task_queue p
    /\ return_values p' = return_values p
    /\ stop_threads p' = stop_threads p.
Proof.
  intros Hs Hunknown. rewrite execute_unfold, Hs. cbn.
  destruct (rank_of priority) as [r|] eqn:Hr.
  - destruct priority as [| | |s]; try discriminate.
    cbn in Hr. apply assoc_In in Hr. now destruct (Hunknown s r Hr).
  - eexists. split; [reflexivity|]. repeat split. exact Hs.
Qed.

Lemma bogus_unknown :
  forall s r, In (s, r) priority_table -> PStr "bogus" <> PStr s.
Proof.
  intros s r Hin. cbn in Hin.
  repeat (destruct Hin as [[= <- <-]|Hin]; [discriminate|]). destruct Hin.
Qed.

Lemma execute_unknown_priority_witness :
  stop_threads Samples.fresh = false
  /\ (forall s r, In (s, r) priority_table -> PStr "bogus" <> PStr s)
  /\ exists p',
       execute Samples.noop [] (Some (PStr "bogus")) [] Samples.fresh
       = (p', Raised (ValueError priority_error))
       /\ task_queue p' = task_queue Samples.fresh
       /\ return_values p' = return_values Samples.fresh
       /\ stop_threads p' = stop_threads Samples.fresh.
Proof.
  split; [reflexivity|]. split; [exact bogus_unknown|].
  apply (execute_unknown_priority Samples.fresh Samples.noop [] (PStr "bogus") []).
  - reflexivity.
  - exact bogus_unknown.
Defined.

(** C1 as stated fails twice.  On a fresh pool, [execute] with priority
    ["bogus"] raises [ValueError] only after the identifier counter went from
    0 to 1; on a stopped pool the same call raises [RuntimeError] instead. *)
Lemma execute_bogus_allocates :
  (forall s r, In (s, r) priority_table -> PStr "bogus" <> PStr s)
  /\ snd (execute Samples.noop [] (Some (PStr "bogus")) [] Samples.fresh)
     = Raised (ValueError priority_error)
  /\ task_id Samples.fresh = 0
  /\ task_id (fst (execute Samples.noop [] (Some (PStr "bogus")) [] Samples.fresh)) = 1
  /\ snd (execute Samples.noop [] (Some (PStr "bogus")) []
            (fst (stop Samples.fresh)))
     = Raised (RuntimeError stopped_error).
Proof. split; [exact bogus_unknown|]. repeat split. Qed.

(** ** Identifiers *)

Lemma execute_returned (func : callable) (args : list pyval)
    (priority : option pyval) (kwargs : list (string * pyval)) (p : pool) (i : Z) :
  snd (execute func args priority kwargs p) = Returned i ->
  i = task_id p + 1 /\ task_id (fst (execute func args priority kwargs p)) = i.
Proof.
  rewrite execute_unfold. destruct (stop_threads p); [discriminate|]. cbn zeta.
  destruct (rank_of _) as [r|]; [|discriminate].
  destruct (pq_full _); [discriminate|]. cbn. intros [= <-]. now split.
Qed.

Lemma task_id_step (a : action) (p : pool) : task_id p <= task_id (step a p).
Proof.
  destruct a; cbn [step].
  - rewrite execute_unfold. destruct (stop_threads p); [cbn; lia|]. cbn zeta.
    destruct (rank_of _) as [r|]; [|cbn; lia].
    destruct (pq_full _); cbn; lia.
  - cbn. lia.
  - rewrite runner_pass_unfold.
    destruct (pq_get _) as [[t q']|]; [|cbn; lia].
    destruct (invoke t); cbn; lia.
  - rewrite retrieve_unfold.
    destruct (return_values p !! tid) as [v|]; [|cbn; lia].
    destruct (py_eq v IN_PROGRESS); cbn; lia.
Qed.

Lemma submitted_ids_above (acts : list action) (p : pool) :
  Forall (fun i => task_id p < i) (submitted_ids acts p)
  /\ StronglySorted Z.lt (submitted_ids acts p).
Proof.
  revert p. induction acts as [|a rest IH]; intros p; cbn [submitted_ids].
  { split; constructor. }
  destruct (IH (step a p)) as [Habove Hsorted].
  pose proof (task_id_step a p) as Hmono.
  assert (Hkeep : Forall (fun i => task_id p < i) (submitted_ids rest (step a p))).
  { eapply Forall_impl; [exact Habove|]. cbn. intros. lia. }
  destruct a as [func args priority kwargs| | |]; try (split; assumption).
  destruct (snd (execute func args priority kwargs p)) as [i| |] eqn:Hi;
    try (split; assumption).
  apply execute_returned in Hi as [-> Hid]. cbn [step] in Habove.
  rewrite Hid in Habove. split.
  - constructor; [lia|assumption].
  - constructor; assumption.
Qed.

Lemma pq_full_new_pool (n m : option Z) :
  pq_full (task_queue (new_pool n m)) = false.
Proof.
  apply not_true_is_false. unfold pq_full.
  rewrite andb_true_iff, Z.ltb_lt, Z.leb_le. cbn. lia.
Qed.

(** ** The order of dequeuing *)

Lemma task_le_total (a b : task) : task_le a b = false -> task_le b a = true.
Proof. unfold task_le, task_lt. lia. Qed.

Lemma task_le_trans (a b c : task) :
  task_le a b = true -> task_le b c = true -> task_le a c = true.
Proof. unfold task_le, task_lt. lia. Qed.

Lemma task_le_spec (a b : task) :
  task_le a b = true <->
  t_priority a < t_priority b
  \/ (t_priority a = t_priority b /\ t_task_id a <= t_task_id b).
Proof. unfold task_le, task_lt. lia. Qed.

Lemma insert_task_perm (t : task) (l : list task) : insert_task t l ≡ₚ t :: l.
Proof.
  induction l as [|u r IH]; cbn; [reflexivity|].
  destruct (task_le t u); [reflexivity|].
  rewrite IH. apply Permutation_swap.
Qed.

Lemma sort_tasks_perm (l : list task) : sort_tasks l ≡ₚ l.
Proof.
  induction l as [|t r IH]; cbn; [reflexivity|].
  now rewrite insert_task_perm, IH.
Qed.

Lemma insert_task_sorted (t : task) (l : list task) :
  StronglySorted (fun a b => task_le a b = true) l ->
  StronglySorted (fun a b => task_le a b = true) (insert_task t l).
Proof.
  induction 1 as [|u r Hr IH Hu]; cbn; [repeat constructor|].
  destruct (task_le t u) eqn:Htu.
  - constructor; [now constructor|]. constructor; [assumption|].
    eapply Forall_impl; [exact Hu|]. cbn. intros x. now apply task_le_trans.
  - constructor; [assumption|].
    rewrite (insert_task_perm t r). constructor; [|assumption].
    now apply task_le_total.
Qed.

Lemma sort_tasks_sorted (l : list task) :
  StronglySorted (fun a b => task_le a b = true) (sort_tasks l).
Proof.
  induction l as [|t r IH]; cbn; [constructor|]. now apply insert_task_sorted.
Qed.

Lemma pq_pop_min_sort (t : task) (q : list task) (m : task) (rest : list task) :
  pq_pop_min t q = (m, rest) -> sort_tasks (t :: q) = m :: sort_tasks rest.
Proof.
  revert t m rest. induction q as [|u r IH]; intros t m rest.
  - cbn. now intros [= <- <-].
  - cbn [pq_pop_min]. destruct (pq_pop_min u r) as [m' rest'] eqn:Hp.
    specialize (IH _ _ _ Hp).
    change (sort_tasks (t :: u :: r)) with (insert_task t (sort_tasks (u :: r))).
    rewrite IH. cbn [insert_task]. unfold task_le at 1.
    destruct (task_lt m' t); intros [= <- <-]; cbn [negb].
    + reflexivity.
    + now rewrite <- IH.
Qed.

Lemma pq_get_length (q q' : PriorityQueue) (t : task) :
  pq_get q = Some (t, q') -> length (entries q) = S (length (entries q')).
Proof.
  intros Hg. destruct (pq_get_split _ _ _ Hg) as (_ & l1 & l2 & -> & ->).
  rewrite !length_app. cbn. lia.
Qed.

Lemma pq_get_sort (q q' : PriorityQueue) (t : task) :
  pq_get q = Some (t, q') ->
  sort_tasks (entries q) = t :: sort_tasks (entries q').
Proof.
  unfold pq_get. destruct (entries q) as [|u r]; [discriminate|].
  destruct (pq_pop_min u r) as [m rest] eqn:Hp. intros [= <- <-].
  now apply pq_pop_min_sort.
Qed.

Lemma drain_sort (n : nat) (q : PriorityQueue) :
  length (entries q) = n -> drain n q = sort_tasks (entries q).
Proof.
  revert q. induction n as [|n IH]; intros q Hlen; cbn [drain].
  - now destruct (entries q).
  - destruct (pq_get q) as [[t q']|] eqn:Hg.
    + rewrite (pq_get_sort _ _ _ Hg). f_equal. apply IH.
      apply pq_get_length in Hg. lia.
    + unfold pq_get in Hg. destruct (entries q) as [|u r]; [discriminate|].
      now destruct (pq_pop_min u r).
Qed.

Lemma dequeue_order_sort (q : PriorityQueue) :
  dequeue_order q = sort_tasks (entries q).
Proof. now apply drain_sort. Qed.

Lemma sorted_lt_NoDup (l : list Z) : StronglySorted Z.lt l -> NoDup l.
Proof.
  induction 1 as [|i l Hl IH Hi]; constructor; [|exact IH].
  rewrite Forall_forall in Hi. intros Hin. specialize (Hi i Hin). lia.
Qed.

Lemma sorted_strict (l : list task) :
  StronglySorted (fun a b => task_le a b = true) l ->
  NoDup (map t_task_id l) ->
  StronglySorted dequeued_before l.
Proof.
  induction 1 as [|x l Hl IH Hx]; cbn; intros Hnd; [constructor|].
  apply NoDup_cons in Hnd as [Hx' Hnd]. constructor; [now apply IH|].
  rewrite Forall_forall in *. intros y Hy.
  specialize (Hx y Hy). apply task_le_spec in Hx.
  assert (t_task_id x <> t_task_id y).
  { intros Heq. apply Hx'. rewrite Heq.
    apply list_elem_of_In, in_map, list_elem_of_In, Hy. }
  unfold dequeued_before. lia.
Qed.

Lemma queue_ids_submitted (acts : list action) (p : pool) :
  forallb is_execute acts = true ->
  queue_ids (run_actions acts p) = queue_ids p ++ submitted_ids acts p.
Proof.
  revert p. induction acts as [|a rest IH]; intros p Hex.
  { cbn. now rewrite app_nil_r. }
  cbn in Hex. apply andb_true_iff in Hex as [Ha Hrest].
  destruct a as [func args priority kwargs| | |]; try discriminate.
  cbn [run_actions submitted_ids]. rewrite (IH _ Hrest). cbn [step].
  rewrite execute_unfold. destruct (stop_threads p); [reflexivity|]. cbn zeta.
  destruct (rank_of _) as [r|]; [|reflexivity].
  destruct (pq_full _); [reflexivity|].
  unfold queue_ids. cbn. now rewrite map_app, <- app_assoc.
Qed.

(** C3.  After a sequence of submissions to a new pool the pending tasks
    are the accepted submissions in call order, and in every pool a run
    reaches their identifiers are distinct and ascend in submission order.
    Successive [get] calls hand the pending tasks out in the order of the
    stable sort by (rank, identifier): ranks never decrease, and within one
    rank identifiers ascend.  A runner receives the first task of that
    order. *)
Theorem dequeue_order_sorted (n m : option Z) (acts : list action) :
  let p := run_actions acts (new_pool n m) in
  (forallb is_execute acts = true ->
   queue_ids p = submitted_ids acts (new_pool n m))
  /\ StronglySorted Z.lt (queue_ids p)
  /\ dequeue_order (task_queue p) = sort_tasks (entries (task_queue p))
  /\ dequeue_order (task_queue p) ≡ₚ entries (task_queue p)
  /\ StronglySorted dequeued_before (dequeue_order (task_queue p))
  /\ (forall t q', pq_get (task_queue p) = Some (t, q') ->
        dequeue_order (task_queue p) = t :: dequeue_order q').
Proof.
  intros p.
  assert (Hs : StronglySorted Z.lt (queue_ids p))
    by apply inv_ids_sorted, inv_run_actions, inv_new_pool.
  rewrite dequeue_order_sort. repeat split.
  - intros Hex. unfold p. now rewrite queue_ids_submitted.
  - exact Hs.
  - apply sort_tasks_perm.
  - apply sorted_strict; [apply sort_tasks_sorted|].
    apply sorted_lt_NoDup in Hs. unfold queue_ids in Hs.
    now rewrite (Permutation_map t_task_id (sort_tasks_perm (entries (task_queue p)))).
  - intros t q' Hg. rewrite dequeue_order_sort. now apply pq_get_sort.
Qed.

Lemma dequeue_order_sorted_witness :
  let p := run_actions Samples.five Samples.fresh in
  forallb is_execute Samples.five = true
  /\ queue_ids p = [1; 2; 3; 4; 5]
  /\ map t_priority (entries (task_queue p)) = [3; 1; 2; 0; 3]
  /\ map t_task_id (dequeue_order (task_queue p)) = [4; 2; 3; 1; 5]
  /\ StronglySorted dequeued_before (dequeue_order (task_queue p)).
Proof.
  destruct (dequeue_order_sorted None None Samples.five)
    as (Hpending & _ & _ & _ & Hsorted & _).
  split; [reflexivity|]. split; [exact (Hpending eq_refl)|].
  split; [reflexivity|]. split; [reflexivity|exact Hsorted].
Defined.

(** ** Entries that no transition changes any more *)

Lemma run_actions_app (a b : list action) (p : pool) :
  run_actions (a ++ b) p = run_actions b (run_actions a p).
Proof. revert p. induction a as [|x a IH]; intros p; cbn; [reflexivity|apply IH]. Qed.

Lemma stuck_step (tid : Z) (a : action) (p : pool) :
  inv p -> stuck tid p -> stuck tid (step a p).
Proof.
  intros Hinv [Hv Hq]. unfold stuck, queue_ids in *.
  assert (Hle : tid <= task_id p) by (apply (inv_keys_bound p Hinv); eauto).
  destruct a as [func args priority kwargs| | |k]; cbn [step].
  - rewrite execute_unfold. destruct (stop_threads p); [now split|]. cbn zeta.
    destruct (rank_of _) as [r|]; [|now split].
    destruct (pq_full _); [now split|]. cbn. split.
    + rewrite lookup_insert_ne; [assumption|lia].
    + rewrite map_app, elem_of_app. cbn. rewrite list_elem_of_singleton.
      intros [?|?]; [tauto|lia].
  - now split.
  - rewrite runner_pass_unfold.
    destruct (pq_get (task_queue p)) as [[t q']|] eqn:Hg; [|now split].
    destruct (pq_get_split _ _ _ Hg) as (_ & l1 & l2 & He & He').
    rewrite He, map_app, elem_of_app in Hq. cbn in Hq. rewrite elem_of_cons in Hq.
    assert (Hq' : tid ∉ map t_task_id (entries q'))
      by (rewrite He', map_app, elem_of_app; tauto).
    destruct (invoke t) as [v|e]; cbn; split; try assumption.
    rewrite lookup_insert_ne; [assumption|]. intros Heq. apply Hq. auto.
  - rewrite retrieve_unfold.
    destruct (return_values p !! k) as [v|] eqn:Hk; [|now split].
    destruct (py_eq v IN_PROGRESS) eqn:Hpy; [now split|]. cbn. split; [|assumption].
    rewrite lookup_delete_ne; [assumption|]. intros ->.
    rewrite Hv in Hk. injection Hk as <-.
    now rewrite (proj2 (py_eq_IN_PROGRESS _) eq_refl) in Hpy.
Qed.

Lemma stuck_run_actions (tid : Z) (acts : list action) (p : pool) :
  inv p -> stuck tid p -> stuck tid (run_actions acts p).
Proof.
  revert p. induction acts as [|a rest IH]; intros p Hinv Hst; cbn; [assumption|].
  apply IH; [now apply inv_step|now apply stuck_step].
Qed.

Lemma consumed_step (tid : Z) (a : action) (p : pool) :
  inv p -> consumed tid p -> consumed tid (step a p).
Proof.
  intros Hinv [Hv Hle]. unfold consumed.
  destruct a as [func args priority kwargs| | |k]; cbn [step].
  - rewrite execute_unfold. destruct (stop_threads p); [now split|]. cbn zeta.
    destruct (rank_of _) as [r|]; [|cbn; split; [assumption|lia]].
    destruct (pq_full _); cbn; (split; [|lia]); [assumption|].
    rewrite lookup_insert_ne; [assumption|lia].
  - now split.
  - rewrite runner_pass_unfold.
    destruct (pq_get (task_queue p)) as [[t q']|] eqn:Hg; [|now split].
    destruct (pq_get_split _ _ _ Hg) as (_ & l1 & l2 & He & _).
    pose proof (inv_pending p Hinv) as Hp. unfold queue_ids in Hp.
    rewrite He, map_app in Hp. apply Forall_app in Hp as [_ Hp].
    apply Forall_cons in Hp as [Hp _].
    destruct (invoke t) as [v|e]; cbn; split; try assumption.
    rewrite lookup_insert_ne; [assumption|]. intros Heq.
    rewrite Heq, Hv in Hp. discriminate.
  - rewrite retrieve_unfold.
    destruct (return_values p !! k) as [v|] eqn:Hk; [|now split].
    destruct (py_eq v IN_PROGRESS); [now split|]. cbn. split; [|assumption].
    rewrite lookup_delete. now case_decide.
Qed.

Lemma consumed_run_actions (tid : Z) (acts : list action) (p : pool) :
  inv p -> consumed tid p -> consumed tid (run_actions acts p).
Proof.
  revert p. induction acts as [|a rest IH]; intros p Hinv Hc; cbn; [assumption|].
  apply IH; [now apply inv_step|now apply consumed_step].
Qed.

(** ** The polling loop *)

Lemma after_sleeps_0 (sched : list (list action)) (p : pool) :
  after_sleeps 0 sched p = p.
Proof. reflexivity. Qed.

Lemma after_sleeps_S (k : nat) (others : list action)
    (sched : list (list action)) (p : pool) :
  after_sleeps (S k) (others :: sched) p
  = after_sleeps k sched (run_actions others p).
Proof. unfold after_sleeps. cbn. apply run_actions_app. Qed.

Lemma poll_done (tid : Z) (timeout timer : float) (sched : list (list action))
    (p : pool) (v : pyval) :
  return_values p !! tid = Some v ->
  v <> IN_PROGRESS ->
  poll tid timeout timer sched p
  = (set_return_values (delete tid (return_values p)) p, Returned v).
Proof.
  intros Hv Hne. rewrite poll_unfold, Hv.
  destruct (py_eq v IN_PROGRESS) eqn:Hpy; [|reflexivity].
  now apply py_eq_IN_PROGRESS in Hpy.
Qed.

Lemma poll_missing (tid : Z) (timeout timer : float)
    (sched : list (list action)) (p : pool) :
  return_values p !! tid = None ->
  poll tid timeout timer sched p = (p, Raised (KeyError tid)).
Proof. intros Hv. now rewrite poll_unfold, Hv. Qed.

Lemma poll_timeout (tid : Z) (timeout : float) (n : nat) :
  forall (sched : list (list action)) (p : pool) (j : nat),
  (0 < n <= length sched)%nat ->
  (forall k, (k < n)%nat ->
     return_values (after_sleeps k sched p) !! tid = Some IN_PROGRESS) ->
  (forall k, (0 < k < n)%nat -> (timeout <? timer_after (j + k))%float = false) ->
  (timeout <? timer_after (j + n))%float = true ->
  poll tid timeout (timer_after j) sched p
  = (after_sleeps n sched p, Returned UNFINISHED).
Proof.
  induction n as [|n IH]; intros sched p j Hn Hbusy Hnot Hout; [lia|].
  destruct sched as [|others sched]; [cbn in Hn; lia|].
  rewrite poll_unfold, (Hbusy 0%nat ltac:(lia) : return_values p !! tid = _).
  rewrite (proj2 (py_eq_IN_PROGRESS _) eq_refl).
  change (timer_after j + tick)%float with (timer_after (S j)).
  rewrite after_sleeps_S.
  destruct n as [|n].
  - replace (j + 1)%nat with (S j) in Hout by lia. rewrite Hout. reflexivity.
  - pose proof (Hnot 1%nat ltac:(lia)) as Hlt.
    replace (j + 1)%nat with (S j) in Hlt by lia. rewrite Hlt.
    apply IH.
    + cbn in Hn. lia.
    + intros k Hk. rewrite <- after_sleeps_S. apply Hbusy. lia.
    + intros k Hk. replace (S j + k)%nat with (j + S k)%nat by lia.
      apply Hnot. lia.
    + now replace (S j + S n)%nat with (j + S (S n))%nat by lia.
Qed.

Lemma poll_stuck (tid : Z) (timeout : float) (sched : list (list action)) :
  forall (timer : float) (p : pool),
  inv p -> stuck tid p ->
  exists p', stuck tid p' /\
    (poll tid timeout timer sched p = (p', Waiting)
     \/ poll tid timeout timer sched p = (p', Returned UNFINISHED)).
Proof.
  induction sched as [|others sched IH]; intros timer p Hinv Hst;
    rewrite poll_unfold, (proj1 Hst), (proj2 (py_eq_IN_PROGRESS _) eq_refl).
  - exists p. auto.
  - pose proof (stuck_run_actions tid others p Hinv Hst) as Hst'.
    destruct (timeout <? timer + tick)%float.
    + eexists. eauto.
    + apply IH; [now apply inv_run_actions|assumption].
Qed.

Lemma stuck_get_return_value (tid : Z) (p : pool) :
  inv p -> stuck tid p ->
  is_task_in_progress tid p = (p, Returned true)
  /\ (forall timeout sched,
        exists p',
          get_return_value tid timeout sched p = (p', Waiting)
          \/ get_return_value tid timeout sched p = (p', Returned UNFINISHED))
  /\ (forall timeout sched n,
        (0 < n <= length sched)%nat ->
        (forall k, (0 < k < n)%nat ->
           (default 86400 timeout <? timer_after k)%float = false) ->
        (default 86400 timeout <? timer_after n)%float = true ->
        get_return_value tid timeout sched p
        = (after_sleeps n sched p, Returned UNFINISHED)).
Proof.
  intros Hinv Hst. repeat split.
  - rewrite is_task_in_progress_unfold, (proj1 Hst).
    now rewrite (proj2 (py_eq_IN_PROGRESS _) eq_refl).
  - intros timeout sched. unfold get_return_value.
    destruct (poll_stuck tid (default 86400%float timeout) sched 0%float p Hinv Hst)
      as (p' & _ & H). now exists p'.
  - intros timeout sched n Hn Hnot Hout. unfold get_return_value.
    apply (poll_timeout tid _ n sched p 0); try assumption.
    intros k _. apply (stuck_run_actions tid _ p Hinv Hst).
Qed.

(** ** Claims about results *)

(** C7.  Let the entry of [tid] be in progress at every test of the loop and
    still so when, after [n] sleeps, the timer first exceeds the timeout.
    Then [get_return_value] returns the unfinished marker, and the pool it
    leaves is the one the other threads produced during the sleeps: the call
    itself changed nothing (with idle threads the pool is the one it
    started from), the entry is still there and in progress, and once a
    result is stored under [tid] a later call returns it. *)
Theorem get_return_value_timeout (p : pool) (tid : Z) (timeout : option float)
    (sched : list (list action)) (n : nat) :
  (0 < n <= length sched)%nat ->
  (forall k, (k <= n)%nat ->
     return_values (after_sleeps k sched p) !! tid = Some IN_PROGRESS) ->
  (forall k, (0 < k < n)%nat ->
     (default 86400 timeout <? timer_after k)%float = false) ->
  (default 86400 timeout <? timer_after n)%float = true ->
  let p' := after_sleeps n sched p in
  get_return_value tid timeout sched p = (p', Returned UNFINISHED)
  /\ return_values p' !! tid = Some IN_PROGRESS
  /\ is_task_in_progress tid p' = (p', Returned true)
  /\ (concat (take n sched) = [] -> p' = p)
  /\ (forall v timeout' sched',
        v <> IN_PROGRESS ->
        snd (get_return_value tid timeout' sched'
               (set_return_values (<[tid := v]> (return_values p')) p'))
        = Returned v).
Proof.
  intros Hn Hbusy Hnot Hout p'. repeat split.
  - unfold get_return_value.
    apply (poll_timeout tid _ n sched p 0); try assumption.
    intros k Hk. apply Hbusy. lia.
  - apply Hbusy. lia.
  - rewrite is_task_in_progress_unfold. unfold p'. rewrite (Hbusy n) by lia.
    now rewrite (proj2 (py_eq_IN_PROGRESS _) eq_refl).
  - intros Hidle. unfold p', after_sleeps. now rewrite Hidle.
  - intros v timeout' sched' Hv. unfold get_return_value.
    erewrite poll_done; [reflexivity| |exact Hv]. cbn. apply lookup_insert_eq.
Qed.

Lemma get_return_value_timeout_witness :
  let p := step (Execute Samples.noop [] None []) Samples.fresh in
  (0 < 3 <= length [[]; []; [] : list action])%nat
  /\ get_return_value 1 (Some 0.25%float) [[]; []; []] p = (p, Returned UNFINISHED)
  /\ return_values p !! 1 = Some IN_PROGRESS.
Proof.
  pose (p := step (Execute Samples.noop [] None []) Samples.fresh).
  assert (Hbusy : forall k, (k <= 3)%nat ->
            return_values (after_sleeps k [[]; []; []] p) !! 1 = Some IN_PROGRESS).
  { intros k _. destruct k as [|[|[|[|k]]]]; reflexivity. }
  assert (Hnot : forall k, (0 < k < 3)%nat ->
            (default 86400 (Some 0.25) <? timer_after k)%float = false).
  { intros k Hk. destruct k as [|[|[|k]]]; try reflexivity; lia. }
  split; [cbn; lia|].
  destruct (get_return_value_timeout p 1 (Some 0.25%float) [[]; []; []] 3
              ltac:(cbn; lia) Hbusy Hnot eq_refl) as (Hget & Hentry & _).
  split; [exact Hget|exact Hentry].
Defined.



(** ** Claims about runners *)





(** * Properties of whole runs *)

(** ** Bounds *)

Lemma rank_of_range (v : pyval) (r : Z) : rank_of v = Some r -> 0 <= r <= 4.
Proof.
  destruct v as [| | |s]; try discriminate. cbn [rank_of].
  intros Hr. apply assoc_In in Hr. cbn in Hr.
  repeat (destruct Hr as [[= <- <-]|Hr]; [lia|]). destruct Hr.
Qed.

Lemma pq_full_false (q : PriorityQueue) :
  pq_full q = false ->
  0 < maxsize q -> Z.of_nat (length (entries q)) < maxsize q.
Proof.
  unfold pq_full. intros Hf Hpos.
  apply andb_false_iff in Hf as [Hf|Hf].
  - apply Z.ltb_ge in Hf. lia.
  - apply Z.leb_gt in Hf. lia.
Qed.

Lemma bounds_new_pool (n m : option Z) : bounds n m (new_pool n m).
Proof.
  split; cbn; try (reflexivity || lia || constructor).
  intros k [v Hv]. now rewrite lookup_empty in Hv.
Qed.

Lemma bounds_step (n m : option Z) (a : action) (p : pool) :
  inv p -> bounds n m p -> bounds n m (step a p).
Proof.
  intros Hinv [Hc Hk Hr Hm Ht Hcap].
  destruct a as [func args priority kwargs| | |k]; cbn [step].
  - rewrite execute_unfold. destruct (stop_threads p); [now split|]. cbn zeta.
    destruct (rank_of _) as [r|] eqn:Hrank; [|split; cbn; auto; lia].
    destruct (pq_full _) eqn:Hfull; [split; cbn; auto; lia|].
    split; cbn; auto; try lia.
    + intros j. rewrite lookup_insert. case_decide; [lia|apply Hk].
    + apply Forall_app. split; [assumption|].
      repeat constructor; cbn; now apply rank_of_range in Hrank.
    + intros Hpos. pose proof (pq_full_false _ Hfull Hpos).
      rewrite length_app. cbn. lia.
  - now split.
  - rewrite runner_pass_unfold.
    destruct (pq_get (task_queue p)) as [[t q']|] eqn:Hg; [|now split].
    destruct (pq_get_split _ _ _ Hg) as (Hmax & l1 & l2 & He & He').
    pose proof (inv_pending p Hinv) as Hp. unfold queue_ids in Hp.
    rewrite He, map_app in Hp. apply Forall_app in Hp as [_ Hp].
    apply Forall_cons in Hp as [Hp _].
    rewrite He in Hr, Hcap. apply Forall_app in Hr as [Hr1 Hr2].
    apply Forall_cons in Hr2 as [_ Hr2]. rewrite length_app in Hcap. cbn in Hcap.
    assert (Hr' : Forall (fun t => 0 <= t_priority t <= 4) (entries q'))
      by (rewrite He'; now apply Forall_app).
    assert (Hcap' : 0 < maxsize q' -> Z.of_nat (length (entries q')) <= maxsize q')
      by (rewrite Hmax, He', length_app; lia).
    destruct (invoke t) as [v|e]; split; cbn; auto; try congruence.
    intros j. rewrite lookup_insert.
    destruct (decide (t_task_id t = j)) as [<-|]; [|apply Hk].
    intros _. apply Hk. eauto.
  - rewrite retrieve_unfold.
    destruct (return_values p !! k) as [v|]; [|now split].
    destruct (py_eq v IN_PROGRESS); [now split|].
    split; cbn; auto.
    intros j. rewrite lookup_delete. case_decide; [now intros [? ?]|apply Hk].
Qed.

Lemma bounds_run_actions (n m : option Z) (acts : list action) (p : pool) :
  inv p -> bounds n m p -> bounds n m (run_actions acts p).
Proof.
  revert p. induction acts as [|a rest IH]; intros p Hinv Hb; cbn; [assumption|].
  apply IH; [now apply inv_step|now apply bounds_step].
Qed.

(** X2.  The queue never holds more than [max_tasks] tasks when
    [max_tasks] is positive, and its capacity and the pool's thread count
    stay what the constructor was given (256 and 2 by default). *)
Theorem queue_within_capacity (n m : option Z) (acts : list action) :
  let p := run_actions acts (new_pool n m) in
  maxsize (task_queue p) = default 256 m
  /\ number_of_threads p = default 2 n
  /\ (0 < default 256 m ->
      Z.of_nat (length (entries (task_queue p))) <= default 256 m).
Proof.
  intros p.
  assert (Hb : bounds n m p)
    by (apply bounds_run_actions; [apply inv_new_pool|apply bounds_new_pool]).
  destruct Hb as [_ _ _ Hm Ht Hcap].
  split; [exact Hm|]. split; [exact Ht|]. now rewrite <- Hm.
Qed.

(** ** The counter and the stop flag along a run *)

Lemma stop_threads_step_eq (a : action) (p : pool) :
  stop_threads (step a p) = stop_threads p || is_stop a.
Proof.
  destruct a as [func args priority kwargs| | |k]; cbn [step is_stop].
  - rewrite execute_unfold, orb_false_r.
    destruct (stop_threads p) eqn:Hs; [exact Hs|]. cbn zeta.
    destruct (rank_of _) as [r|]; [|exact Hs].
    now destruct (pq_full _).
  - cbn. now rewrite orb_true_r.
  - rewrite runner_pass_unfold, orb_false_r.
    destruct (pq_get _) as [[t q']|]; [|reflexivity].
    now destruct (invoke t).
  - rewrite retrieve_unfold, orb_false_r.
    destruct (return_values p !! k) as [v|]; [|reflexivity].
    now destruct (py_eq v IN_PROGRESS).
Qed.

Lemma task_id_step_eq (a : action) (p : pool) :
  task_id (step a p)
  = task_id p + (if negb (stop_threads p) && is_execute a then 1 else 0).
Proof.
  destruct a as [func args priority kwargs| | |k]; cbn [step is_execute].
  - rewrite execute_unfold. destruct (stop_threads p); cbn; [lia|].
    destruct (rank_of _) as [r|]; [|reflexivity].
    now destruct (pq_full _).
  - rewrite andb_false_r. cbn. lia.
  - rewrite andb_false_r, runner_pass_unfold.
    destruct (pq_get _) as [[t q']|]; [|cbn; lia].
    destruct (invoke t); cbn; lia.
  - rewrite andb_false_r, retrieve_unfold.
    destruct (return_values p !! k) as [v|]; [|cbn; lia].
    destruct (py_eq v IN_PROGRESS); cbn; lia.
Qed.

Lemma task_id_run_stopped (acts : list action) (p : pool) :
  stop_threads p = true -> task_id (run_actions acts p) = task_id p.
Proof.
  revert p. induction acts as [|a rest IH]; intros p Hs; cbn; [reflexivity|].
  rewrite IH by now apply stop_threads_step.
  rewrite task_id_step_eq, Hs. cbn. lia.
Qed.

Lemma task_id_run_actions (acts : list action) (p : pool) :
  stop_threads p = false ->
  task_id (run_actions acts p) = task_id p + Z.of_nat (allocations acts).
Proof.
  revert p. induction acts as [|a rest IH]; intros p Hs; [cbn; lia|].
  cbn [run_actions].
  pose proof (stop_threads_step_eq a p) as Hflag. rewrite Hs in Hflag.
  pose proof (task_id_step_eq a p) as Hid. rewrite Hs in Hid.
  destruct a as [func args priority kwargs| | |k];
    cbn [is_stop is_execute negb andb orb] in Hflag, Hid; cbn [allocations].
  - rewrite IH, Hid by assumption. lia.
  - rewrite task_id_run_stopped by assumption. cbn. lia.
  - rewrite IH, Hid by assumption. lia.
  - rewrite IH, Hid by assumption. lia.
Qed.

(** X5.  The counter [task_id] of a pool counts the [execute] calls made
    before the first [stop], whether they returned, blocked or were refused
    for their priority; calls after [stop] leave it alone. *)
Theorem task_id_counts_calls (n m : option Z) (acts : list action) :
  task_id (run_actions acts (new_pool n m)) = Z.of_nat (allocations acts).
Proof. now rewrite task_id_run_actions. Qed.

(** X6.  The stop flag of a pool is set exactly when [stop] has been called
    in the run that led to it: no other method sets it and none clears
    it. *)
Theorem stop_threads_iff_stopped (n m : option Z) (acts : list action) :
  stop_threads (run_actions acts (new_pool n m)) = existsb is_stop acts.
Proof.
  change (existsb is_stop acts)
    with (stop_threads (new_pool n m) || existsb is_stop acts).
  generalize (new_pool n m). induction acts as [|a rest IH]; intros p; cbn.
  - now rewrite orb_false_r.
  - now rewrite IH, stop_threads_step_eq, orb_assoc.
Qed.

(** ** What a pass of a runner takes and leaves *)

Lemma pq_get_None (q : PriorityQueue) : pq_get q = None <-> entries q = [].
Proof.
  unfold pq_get. destruct (entries q) as [|u r]; [easy|].
  now destruct (pq_pop_min u r).
Qed.

Lemma pq_get_perm (q q' : PriorityQueue) (t : task) :
  pq_get q = Some (t, q') -> entries q ≡ₚ t :: entries q'.
Proof.
  intros Hg. destruct (pq_get_split _ _ _ Hg) as (_ & l1 & l2 & -> & ->).
  symmetry. apply Permutation_middle.
Qed.

Lemma pq_get_first (q q' : PriorityQueue) (t : task) :
  NoDup (map t_task_id (entries q)) ->
  pq_get q = Some (t, q') -> Forall (dequeued_before t) (entries q').
Proof.
  intros Hnd Hg.
  assert (Hs : StronglySorted dequeued_before (sort_tasks (entries q))).
  { apply sorted_strict; [apply sort_tasks_sorted|].
    now rewrite (Permutation_map t_task_id (sort_tasks_perm (entries q))). }
  rewrite (pq_get_sort _ _ _ Hg) in Hs. apply StronglySorted_cons in Hs as [Hs _].
  now rewrite (sort_tasks_perm (entries q')) in Hs.
Qed.

(** ** A runner on its own *)

Lemma run_loop_idle_waiting (p : pool) (fuel : nat) :
  entries (task_queue p) = [] -> stop_threads p = false ->
  _run_loop fuel p = (p, Waiting).
Proof.
  intros He Hs. induction fuel as [|fuel IH]; [reflexivity|].
  cbn [_run_loop].
  erewrite bind_Returned
    by (rewrite runner_pass_unfold, (proj2 (pq_get_None _) He), Hs; reflexivity).
  exact IH.
Qed.

Lemma run_loop_idle_stopped (p : pool) (fuel : nat) :
  entries (task_queue p) = [] -> stop_threads p = true ->
  _run_loop (S fuel) p = (p, Returned tt).
Proof.
  intros He Hs. cbn [_run_loop].
  erewrite bind_Returned
    by (rewrite runner_pass_unfold, (proj2 (pq_get_None _) He), Hs; reflexivity).
  reflexivity.
Qed.

Lemma run_loop_all (k : nat) :
  forall (p : pool) (fuel : nat),
  length (entries (task_queue p)) = k ->
  (k < fuel)%nat ->
  Forall returns (entries (task_queue p)) ->
  _run_loop fuel p
  = (mk_pool (task_id p) (mk_queue (maxsize (task_queue p)) [])
       (store_results (dequeue_order (task_queue p)) (return_values p))
       (number_of_threads p) (stop_threads p),
     if stop_threads p then Returned tt else Waiting).
Proof.
  induction k as [|k IH]; intros p fuel Hlen Hfuel Hret.
  - assert (He : entries (task_queue p) = []) by now destruct (entries (task_queue p)).
    unfold dequeue_order. rewrite Hlen. cbn [drain store_results foldl].
    assert (Hp : mk_pool (task_id p) (mk_queue (maxsize (task_queue p)) [])
                   (return_values p) (number_of_threads p) (stop_threads p) = p).
    { destruct p as [i [ms es] rv nt st]. cbn in *. now subst es. }
    rewrite Hp. destruct (stop_threads p) eqn:Hs.
    + destruct fuel as [|fuel]; [lia|]. now apply run_loop_idle_stopped.
    + now apply run_loop_idle_waiting.
  - destruct fuel as [|fuel]; [lia|].
    destruct (pq_get (task_queue p)) as [[t q']|] eqn:Hg.
    2:{ apply pq_get_None in Hg. rewrite Hg in Hlen. discriminate. }
    assert (Hin : t ∈ entries (task_queue p))
      by (rewrite (pq_get_perm _ _ _ Hg); left).
    rewrite Forall_forall in Hret. destruct (Hret t Hin) as [v Hv].
    cbn [_run_loop].
    erewrite bind_Returned
      by (rewrite runner_pass_unfold, Hg, Hv; reflexivity).
    rewrite (IH _ fuel); cbn.
    + destruct (pq_get_split _ _ _ Hg) as (-> & _).
      rewrite !dequeue_order_sort, (pq_get_sort _ _ _ Hg).
      cbn [store_results foldl]. unfold store_result at 2. now rewrite Hv.
    + apply pq_get_length in Hg. lia.
    + lia.
    + apply Forall_forall. intros u Hu. apply Hret.
      rewrite (pq_get_perm _ _ _ Hg). now right.
Qed.



(** ** From submission to result *)

Lemma invoke_mk_task (r i : Z) (func : callable) (args : list pyval)
    (kwargs : list (string * pyval)) :
  invoke (mk_task r i func args kwargs) = func args kwargs.
Proof. unfold invoke. cbn. now destruct args, kwargs. Qed.

Lemma store_results_notin (l : list task) (m : gmap Z pyval) (i : Z) :
  i ∉ map t_task_id l -> store_results l m !! i = m !! i.
Proof.
  revert m. induction l as [|t l IH]; intros m Hi; [reflexivity|].
  cbn in Hi. rewrite not_elem_of_cons in Hi. destruct Hi as [Hne Hi].
  change (store_results (t :: l) m) with (store_results l (store_result m t)).
  rewrite IH by assumption. unfold store_result.
  destruct (invoke t); [|reflexivity]. now rewrite lookup_insert_ne.
Qed.

Lemma store_results_lookup (l : list task) (m : gmap Z pyval) (t : task)
    (v : pyval) :
  NoDup (map t_task_id l) -> t ∈ l -> invoke t = Returns v ->
  store_results l m !! t_task_id t = Some v.
Proof.
  revert m. induction l as [|u l IH]; intros m Hnd Hin Hv.
  { now apply elem_of_nil in Hin. }
  cbn in Hnd. apply NoDup_cons in Hnd as [Hu Hnd].
  change (store_results (u :: l) m) with (store_results l (store_result m u)).
  apply elem_of_cons in Hin as [->|Hin].
  - rewrite store_results_notin by assumption.
    unfold store_result. rewrite Hv. apply lookup_insert_eq.
  - now apply IH.
Qed.

(** X10.  An identifier that was never allocated, below 1 or above the
    counter, has no entry in a pool a run reaches: [is_task_in_progress]
    raises [KeyError], and so does [get_return_value] at its first test,
    whatever the timeout; neither changes the pool. *)
Theorem unknown_identifier (n m : option Z) (acts : list action) (tid : Z) :
  let p := run_actions acts (new_pool n m) in
  tid < 1 \/ task_id p < tid ->
  return_values p !! tid = None
  /\ is_task_in_progress tid p = (p, Raised (KeyError tid))
  /\ (forall timeout sched,
        get_return_value tid timeout sched p = (p, Raised (KeyError tid))).
Proof.
  intros p Htid.
  assert (Hinv : inv p) by apply inv_run_actions, inv_new_pool.
  assert (Hb : bounds n m p)
    by (apply bounds_run_actions; [apply inv_new_pool|apply bounds_new_pool]).
  assert (Hnone : return_values p !! tid = None).
  { destruct (return_values p !! tid) as [v|] eqn:Hv; [|reflexivity].
    pose proof (inv_keys_bound p Hinv tid (mk_is_Some _ _ Hv)).
    pose proof (bounds_keys n m p Hb tid (mk_is_Some _ _ Hv)). lia. }
  split; [exact Hnone|]. split.
  - now rewrite is_task_in_progress_unfold, Hnone.
  - intros timeout sched. unfold get_return_value. now apply poll_missing.
Qed.

Lemma unknown_identifier_witness :
  let p := run_actions [Execute Samples.noop [] None []] (new_pool None None) in
  (2 < 1 \/ task_id p < 2)
  /\ is_task_in_progress 2 p = (p, Raised (KeyError 2))
  /\ get_return_value 0 None [] p = (p, Raised (KeyError 0)).
Proof.
  intros p.
  assert (H2 : 2 < 1 \/ task_id p < 2) by (right; vm_compute; reflexivity).
  assert (H0 : 0 < 1 \/ task_id p < 0) by (left; lia).
  split; [exact H2|]. split.
  - exact (proj1 (proj2 (unknown_identifier None None
                           [Execute Samples.noop [] None []] 2 H2))).
  - exact (proj2 (proj2 (unknown_identifier None None
                           [Execute Samples.noop [] None []] 0 H0)) None []).
Defined.

(** ** More on the polling loop *)

Lemma poll_result (tid : Z) (timeout : float) (v : pyval) (n : nat) :
  forall (sched : list (list action)) (p : pool) (j : nat),
  (n <= length sched)%nat ->
  (forall k, (k < n)%nat ->
     return_values (after_sleeps k sched p) !! tid = Some IN_PROGRESS) ->
  (forall k, (0 < k <= n)%nat -> (timeout <? timer_after (j + k))%float = false) ->
  return_values (after_sleeps n sched p) !! tid = Some v ->
  v <> IN_PROGRESS ->
  poll tid timeout (timer_after j) sched p
  = (set_return_values (delete tid (return_values (after_sleeps n sched p)))
       (after_sleeps n sched p),
     Returned v).
Proof.
  induction n as [|n IH]; intros sched p j Hn Hbusy Hnot Hv Hne.
  - now apply poll_done.
  - destruct sched as [|others sched]; [cbn in Hn; lia|].
    rewrite poll_unfold, (Hbusy 0%nat ltac:(lia) : return_values p !! tid = _).
    rewrite (proj2 (py_eq_IN_PROGRESS _) eq_refl).
    change (timer_after j + tick)%float with (timer_after (S j)).
    pose proof (Hnot 1%nat ltac:(lia)) as Hlt.
    replace (j + 1)%nat with (S j) in Hlt by lia. rewrite Hlt.
    rewrite after_sleeps_S in *. apply IH; try assumption.
    + cbn in Hn. lia.
    + intros k Hk. rewrite <- after_sleeps_S. apply Hbusy. lia.
    + intros k Hk. replace (S j + k)%nat with (j + S k)%nat by lia.
      apply Hnot. lia.
Qed.

Lemma poll_waiting (tid : Z) (timeout : float) (sched : list (list action)) :
  forall (p : pool) (j : nat),
  (forall k, (k <= length sched)%nat ->
     return_values (after_sleeps k sched p) !! tid = Some IN_PROGRESS) ->
  (forall k, (0 < k <= length sched)%nat ->
     (timeout <? timer_after (j + k))%float = false) ->
  poll tid timeout (timer_after j) sched p
  = (after_sleeps (length sched) sched p, Waiting).
Proof.
  induction sched as [|others sched IH]; intros p j Hbusy Hnot;
    rewrite poll_unfold,
      (Hbusy 0%nat ltac:(lia) : return_values p !! tid = _),
      (proj2 (py_eq_IN_PROGRESS _) eq_refl).
  - reflexivity.
  - change (timer_after j + tick)%float with (timer_after (S j)).
    pose proof (Hnot 1%nat ltac:(cbn; lia)) as Hlt.
    replace (j + 1)%nat with (S j) in Hlt by lia. rewrite Hlt.
    cbn [length]. rewrite after_sleeps_S. apply IH.
    + intros k Hk. rewrite <- after_sleeps_S. apply Hbusy. cbn. lia.
    + intros k Hk. replace (S j + k)%nat with (j + S k)%nat by lia.
      apply Hnot. cbn. lia.
Qed.

Lemma ltb_nan (x : float) : (nan <? x)%float = false.
Proof. rewrite ltb_spec. reflexivity. Qed.

Lemma ltb_infinity (x : float) : (infinity <? x)%float = false.
Proof.
  rewrite ltb_spec. change (Prim2SF infinity) with (S754_infinity false).
  unfold SFltb. cbn. destruct (Prim2SF x) as [ | [] | | ]; reflexivity.
Qed.

(** X11.  [get_return_value] blocks until the value is there: if the entry
    is in progress at its first [n] tests, the timer has not exceeded the
    timeout after any of the [n] sleeps, and during the last of them a
    value other than [IN_PROGRESS] was stored, the call returns that value
    and removes the entry from the pool the other threads left. *)
Theorem get_return_value_waits_for_result (p : pool) (tid : Z)
    (timeout : option float) (sched : list (list action)) (n : nat) (v : pyval) :
  (n <= length sched)%nat ->
  (forall k, (k < n)%nat ->
     return_values (after_sleeps k sched p) !! tid = Some IN_PROGRESS) ->
  (forall k, (0 < k <= n)%nat ->
     (default 86400 timeout <? timer_after k)%float = false) ->
  return_values (after_sleeps n sched p) !! tid = Some v ->
  v <> IN_PROGRESS ->
  let p' := after_sleeps n sched p in
  get_return_value tid timeout sched p
  = (set_return_values (delete tid (return_values p')) p', Returned v).
Proof.
  intros Hn Hbusy Hnot Hv Hne p'. unfold get_return_value.
  now apply (poll_result tid _ v n sched p 0).
Qed.

Lemma get_return_value_waits_for_result_witness :
  let p := step (Execute Samples.add [PInt 2; PInt 3] None []) Samples.fresh in
  let p' := step RunnerPass p in
  return_values p !! 1 = Some IN_PROGRESS
  /\ return_values p' !! 1 = Some (PInt 5)
  /\ get_return_value 1 None [[RunnerPass]] p
     = (set_return_values (delete 1 (return_values p')) p', Returned (PInt 5)).
Proof.
  intros p p'.
  assert (Hbusy : forall k, (k < 1)%nat ->
            return_values (after_sleeps k [[RunnerPass]] p) !! 1
            = Some IN_PROGRESS).
  { intros k Hk. destruct k as [|k]; [reflexivity|lia]. }
  assert (Hnot : forall k, (0 < k <= 1)%nat ->
            (default 86400 None <? timer_after k)%float = false).
  { intros k Hk. destruct k as [|[|k]]; try reflexivity; lia. }
  assert (Hne : PInt 5 <> IN_PROGRESS) by discriminate.
  split; [reflexivity|]. split; [reflexivity|].
  exact (get_return_value_waits_for_result p 1 None [[RunnerPass]] 1 (PInt 5)
           ltac:(cbn; lia) Hbusy Hnot eq_refl Hne).
Defined.

(** X12.  The timeout is tested before the entry is looked at again: when
    the timer first exceeds the timeout after the [n]-th sleep, the call
    returns the unfinished marker even if the result was stored during that
    very sleep.  The entry is left alone, and the next call returns the
    value at once. *)
Theorem get_return_value_late_result (p : pool) (tid : Z)
    (timeout : option float) (sched : list (list action)) (n : nat) (v : pyval) :
  (0 < n <= length sched)%nat ->
  (forall k, (k < n)%nat ->
     return_values (after_sleeps k sched p) !! tid = Some IN_PROGRESS) ->
  (forall k, (0 < k < n)%nat ->
     (default 86400 timeout <? timer_after k)%float = false) ->
  (default 86400 timeout <? timer_after n)%float = true ->
  return_values (after_sleeps n sched p) !! tid = Some v ->
  v <> IN_PROGRESS ->
  let p' := after_sleeps n sched p in
  get_return_value tid timeout sched p = (p', Returned UNFINISHED)
  /\ (forall timeout' sched',
        get_return_value tid timeout' sched' p'
        = (set_return_values (delete tid (return_values p')) p', Returned v)).
Proof.
  intros Hn Hbusy Hnot Hout Hv Hne p'. unfold get_return_value. split.
  - now apply (poll_timeout tid _ n sched p 0).
  - intros timeout' sched'. now apply poll_done.
Qed.

Lemma get_return_value_late_result_witness :
  let p := step (Execute Samples.add [PInt 2; PInt 3] None []) Samples.fresh in
  let p' := step RunnerPass p in
  return_values p' !! 1 = Some (PInt 5)
  /\ get_return_value 1 (Some 0.25%float) [[]; []; [RunnerPass]] p
     = (p', Returned UNFINISHED)
  /\ get_return_value 1 (Some 0.25%float) [] p'
     = (set_return_values (delete 1 (return_values p')) p', Returned (PInt 5)).
Proof.
  intros p p'.
  assert (Hbusy : forall k, (k < 3)%nat ->
            return_values (after_sleeps k [[]; []; [RunnerPass]] p) !! 1
            = Some IN_PROGRESS).
  { intros k Hk. destruct k as [|[|[|k]]]; try reflexivity; lia. }
  assert (Hnot : forall k, (0 < k < 3)%nat ->
            (default 86400 (Some 0.25) <? timer_after k)%float = false).
  { intros k Hk. destruct k as [|[|[|k]]]; try reflexivity; lia. }
  assert (Hne : PInt 5 <> IN_PROGRESS) by discriminate.
  destruct (get_return_value_late_result p 1 (Some 0.25%float)
              [[]; []; [RunnerPass]] 3 (PInt 5)
              ltac:(cbn; lia) Hbusy Hnot eq_refl eq_refl Hne) as [Hout Hnext].
  split; [reflexivity|]. split; [exact Hout|apply Hnext].
Defined.

(** X13.  A timeout that is not a number, or is infinite, never expires:
    as long as the entry is in progress, [get_return_value] with such a
    timeout is still waiting after any number of sleeps, and has changed
    nothing itself. *)
Theorem get_return_value_never_times_out (p : pool) (tid : Z)
    (timeout : float) (sched : list (list action)) :
  timeout = nan \/ timeout = infinity ->
  (forall k, (k <= length sched)%nat ->
     return_values (after_sleeps k sched p) !! tid = Some IN_PROGRESS) ->
  get_return_value tid (Some timeout) sched p
  = (after_sleeps (length sched) sched p, Waiting).
Proof.
  intros Htimeout Hbusy. unfold get_return_value.
  apply (poll_waiting tid _ sched p 0); [assumption|].
  intros k _. cbn. destruct Htimeout as [->| ->];
    [apply ltb_nan|apply ltb_infinity].
Qed.

Lemma get_return_value_never_times_out_witness :
  let p := step (Execute Samples.noop [] None []) Samples.fresh in
  (infinity = nan \/ infinity = infinity)
  /\ get_return_value 1 (Some infinity) [[]; []] p = (p, Waiting).
Proof.
  intros p.
  assert (Hbusy : forall k, (k <= 2)%nat ->
            return_values (after_sleeps k [[]; []] p) !! 1 = Some IN_PROGRESS).
  { intros k _. destruct k as [|[|[|k]]]; reflexivity. }
  split; [now right|].
  exact (get_return_value_never_times_out p 1 infinity [[]; []]
           (or_intror eq_refl) Hbusy).
Defined.

(** ** Order within a rank and the place of a new task *)

Lemma elem_id_inj (l : list task) (x y : task) :
  NoDup (map t_task_id l) -> x ∈ l -> y ∈ l ->
  t_task_id x = t_task_id y -> x = y.
Proof.
  induction l as [|u l IH]; intros Hnd Hx Hy Heq.
  { now apply elem_of_nil in Hx. }
  cbn in Hnd. apply NoDup_cons in Hnd as [Hu Hnd].
  assert (Hmem : forall z, z ∈ l -> t_task_id z ∈ map t_task_id l)
    by (intros z Hz; apply list_elem_of_In, in_map, list_elem_of_In, Hz).
  apply elem_of_cons in Hx as [->|Hx]; apply elem_of_cons in Hy as [->|Hy].
  - reflexivity.
  - destruct Hu. rewrite Heq. now apply Hmem.
  - destruct Hu. rewrite <- Heq. now apply Hmem.
  - now apply IH.
Qed.

Lemma sorted_perm_eq (l1 l2 : list task) :
  (forall x y, x ∈ l1 -> y ∈ l1 -> t_task_id x = t_task_id y -> x = y) ->
  l1 ≡ₚ l2 ->
  StronglySorted (fun a b => task_le a b = true) l1 ->
  StronglySorted (fun a b => task_le a b = true) l2 ->
  l1 = l2.
Proof.
  intros Hinj Hperm Hs1 Hs2.
  apply (StronglySorted_unique_strong (fun a b => task_le a b = true));
    try assumption.
  intros x y Hx Hy Hxy Hyx. apply Hinj; [assumption|now rewrite Hperm|].
  apply task_le_spec in Hxy, Hyx. lia.
Qed.

Lemma sorted_filter {A : Type} (R : relation A) (P : A -> Prop)
    `{!forall x, Decision (P x)} (l : list A) :
  StronglySorted R l -> StronglySorted R (filter P l).
Proof.
  induction 1 as [|x l Hl IH Hx]; [constructor|].
  rewrite filter_cons. destruct (decide (P x)); [|assumption].
  constructor; [assumption|].
  rewrite Forall_forall in *. intros y Hy.
  apply list_elem_of_filter in Hy as [_ Hy]. now apply Hx.
Qed.

Lemma sorted_impl_elem {A : Type} (R R' : relation A) (l : list A) :
  (forall x y, x ∈ l -> y ∈ l -> R x y -> R' x y) ->
  StronglySorted R l -> StronglySorted R' l.
Proof.
  intros Himpl Hs. induction Hs as [|x l Hl IH Hx]; [constructor|].
  constructor.
  - apply IH. intros a b Ha Hb. apply Himpl; now right.
  - rewrite Forall_forall in *. intros y Hy.
    apply Himpl; [left|now right|now apply Hx].
Qed.

Lemma ids_sorted_entries (l : list task) :
  StronglySorted Z.lt (map t_task_id l) ->
  StronglySorted (fun a b => t_task_id a < t_task_id b) l.
Proof.
  induction l as [|x l IH]; cbn; intros Hs; [constructor|].
  apply StronglySorted_cons in Hs as [Hx Hs]. constructor; [now apply IH|].
  rewrite Forall_forall in Hx. apply Forall_forall. intros y Hy. apply Hx.
  apply list_elem_of_In, in_map, list_elem_of_In, Hy.
Qed.

(** X14.  First in, first out within a rank: in a pool a run reaches, the
    pending tasks of any one rank leave the queue in the order in which
    they were submitted, whatever tasks of other ranks are pending; so
    when all pending tasks have one rank the queue is a plain FIFO. *)
Theorem fifo_within_rank (n m : option Z) (acts : list action) (r : Z) :
  let p := run_actions acts (new_pool n m) in
  filter (fun t => t_priority t = r) (dequeue_order (task_queue p))
  = filter (fun t => t_priority t = r) (entries (task_queue p))
  /\ (Forall (fun t => t_priority t = r) (entries (task_queue p)) ->
      dequeue_order (task_queue p) = entries (task_queue p)).
Proof.
  intros p.
  assert (Hs : StronglySorted Z.lt (queue_ids p))
    by apply inv_ids_sorted, inv_run_actions, inv_new_pool.
  unfold queue_ids in Hs. set (E := entries (task_queue p)) in *.
  assert (Hfifo : forall r',
            filter (fun t => t_priority t = r') (sort_tasks E)
            = filter (fun t => t_priority t = r') E).
  { intros r'. apply sorted_perm_eq.
    - intros x y Hx Hy. apply list_elem_of_filter in Hx as [_ Hx].
      apply list_elem_of_filter in Hy as [_ Hy].
      rewrite (sort_tasks_perm E) in Hx, Hy.
      apply (elem_id_inj E); [now apply sorted_lt_NoDup|assumption..].
    - now rewrite (sort_tasks_perm E).
    - apply sorted_filter, sort_tasks_sorted.
    - apply (sorted_impl_elem (fun a b => t_task_id a < t_task_id b)).
      + intros x y Hx Hy Hlt. apply list_elem_of_filter in Hx as [Hx _].
        apply list_elem_of_filter in Hy as [Hy _].
        apply task_le_spec. lia.
      + now apply sorted_filter, ids_sorted_entries. }
  rewrite dequeue_order_sort. split; [apply Hfifo|].
  intros Hall. specialize (Hfifo r).
  assert (Hall' : Forall (fun t => t_priority t = r) (sort_tasks E))
    by now rewrite (sort_tasks_perm E).
  assert (Hid : forall l, Forall (fun t => t_priority t = r) l ->
                  filter (fun t => t_priority t = r) l = l).
  { induction 1 as [|x l Hx Hl IH]; [reflexivity|].
    rewrite filter_cons_True by assumption. now rewrite IH. }
  now rewrite !Hid in Hfifo.
Qed.

(** X15.  Where a new task goes.  When [execute] returns in a pool a run
    reaches, the new task takes its place in the order of dequeuing behind
    every pending task whose rank is at most its own and ahead of every
    pending task of greater rank; the order among the tasks that were
    pending is unchanged. *)
Theorem new_task_place (n m : option Z) (acts : list action)
    (func : callable) (args : list pyval) (priority : option pyval)
    (kwargs : list (string * pyval)) (p1 : pool) (i : Z) :
  let p := run_actions acts (new_pool n m) in
  execute func args priority kwargs p = (p1, Returned i) ->
  exists r,
    rank_of (default (PStr "normal") priority) = Some r
    /\ dequeue_order (task_queue p1)
       = filter (fun u => t_priority u <= r) (dequeue_order (task_queue p))
         ++ mk_task r i func args kwargs
            :: filter (fun u => ~ t_priority u <= r)
                 (dequeue_order (task_queue p)).
Proof.
  intros p Hex.
  assert (Hinv : inv p) by apply inv_run_actions, inv_new_pool.
  assert (Hinv1 : inv p1).
  { replace p1 with (fst (execute func args priority kwargs p))
      by now rewrite Hex.
    now apply inv_execute. }
  rewrite execute_unfold in Hex.
  destruct (stop_threads p); [discriminate|]. cbn zeta in Hex.
  destruct (rank_of _) as [r|]; [|discriminate].
  destruct (pq_full _); [discriminate|].
  injection Hex as Hp1 Hi. exists r. split; [reflexivity|].
  set (t := mk_task r i func args kwargs).
  set (E := entries (task_queue p)).
  assert (He1 : entries (task_queue p1) = E ++ [t])
    by (subst p1 t E; cbn; now rewrite Hi).
  assert (Hold : forall u, u ∈ E -> t_task_id u < i).
  { intros u Hu. pose proof (inv_ids_bound p Hinv) as Hb.
    rewrite Forall_forall in Hb.
    assert (t_task_id u <= task_id p)
      by (apply Hb, list_elem_of_In, in_map, list_elem_of_In, Hu).
    lia. }
  rewrite !dequeue_order_sort. fold E. rewrite He1.
  apply sorted_perm_eq.
  - intros x y Hx Hy. rewrite (sort_tasks_perm (E ++ [t])), <- He1 in Hx, Hy.
    apply (elem_id_inj (entries (task_queue p1))); [|assumption..].
    apply sorted_lt_NoDup, (inv_ids_sorted p1 Hinv1).
  - transitivity (t :: sort_tasks E).
    { rewrite (sort_tasks_perm (E ++ [t])), (sort_tasks_perm E).
      symmetry. apply Permutation_cons_append. }
    rewrite <- (filter_app_complement (fun u => t_priority u <= r)
                  (sort_tasks E)) at 1.
    apply Permutation_middle.
  - apply sort_tasks_sorted.
  - apply StronglySorted_app_2.
    + intros x y Hx Hy. apply list_elem_of_filter in Hx as [Hxr Hx].
      rewrite (sort_tasks_perm E) in Hx. specialize (Hold x Hx).
      apply task_le_spec. apply elem_of_cons in Hy as [->|Hy].
      * cbn. lia.
      * apply list_elem_of_filter in Hy as [Hyr _]. lia.
    + apply sorted_filter, sort_tasks_sorted.
    + constructor; [apply sorted_filter, sort_tasks_sorted|].
      apply Forall_forall. intros y Hy.
      apply list_elem_of_filter in Hy as [Hyr _].
      apply task_le_spec. cbn. lia.
Qed.

Lemma new_task_place_witness :
  let p := run_actions [Execute Samples.noop [] (Some (PStr "low")) [];
                        Execute Samples.noop [] (Some (PStr "high")) []]
             (new_pool None None) in
  let p1 := step (Execute Samples.add [PInt 2; PInt 3] None []) p in
  execute Samples.add [PInt 2; PInt 3] None [] p = (p1, Returned 3)
  /\ map t_task_id (dequeue_order (task_queue p)) = [2; 1]
  /\ map t_task_id (dequeue_order (task_queue p1)) = [2; 3; 1].
Proof.
  intros p p1.
  assert (Hex : execute Samples.add [PInt 2; PInt 3] None [] p = (p1, Returned 3))
    by reflexivity.
  destruct (new_task_place None None
              [Execute Samples.noop [] (Some (PStr "low")) [];
               Execute Samples.noop [] (Some (PStr "high")) []]
              Samples.add [PInt 2; PInt 3] None [] p1 3 Hex) as (r & Hr & Hplace).
  split; [exact Hex|]. split; [reflexivity|].
  rewrite Hplace. injection Hr as <-. reflexivity.
Defined.

(** ** A runner and a task that raises *)

Lemma dequeue_order_cons (q : PriorityQueue) (t : task) (rest : list task) :
  dequeue_order q = t :: rest ->
  exists q', pq_get q = Some (t, q') /\ dequeue_order q' = rest.
Proof.
  unfold dequeue_order. destruct (length (entries q)) as [|k] eqn:Hlen;
    cbn [drain]; [discriminate|].
  destruct (pq_get q) as [[t' q']|] eqn:Hg; [|discriminate].
  intros [= -> <-]. exists q'. split; [reflexivity|].
  apply pq_get_length in Hg. now replace (length (entries q')) with k by lia.
Qed.

Lemma run_loop_until_raise (l1 : list task) :
  forall (p : pool) (fuel : nat) (t : task) (l2 : list task) (e : exn),
  dequeue_order (task_queue p) = l1 ++ t :: l2 ->
  Forall returns l1 ->
  invoke t = Raises e ->
  (length l1 < fuel)%nat ->
  exists q',
    dequeue_order q' = l2
    /\ maxsize q' = maxsize (task_queue p)
    /\ _run_loop fuel p
       = (mk_pool (task_id p) q' (store_results l1 (return_values p))
            (number_of_threads p) (stop_threads p),
          Raised e).
Proof.
  induction l1 as [|u l1 IH]; intros p fuel t l2 e Hd Hret He Hfuel;
    (destruct fuel as [|fuel]; [cbn in Hfuel; lia|]);
    apply dequeue_order_cons in Hd as (q1 & Hg & Hd1).
  - exists q1. split; [assumption|]. split.
    + now destruct (pq_get_split _ _ _ Hg) as (Hmax & _).
    + cbn [_run_loop]. apply bind_Raised.
      now rewrite runner_pass_unfold, Hg, He.
  - apply Forall_cons in Hret as [[v Hv] Hret].
    destruct (IH (mk_pool (task_id p) q1 (<[t_task_id u := v]> (return_values p))
                    (number_of_threads p) (stop_threads p))
                fuel t l2 e Hd1 Hret He ltac:(cbn in Hfuel; lia))
      as (q' & Hd' & Hmax & Hrun).
    exists q'. split; [assumption|]. split.
    + cbn in Hmax. rewrite Hmax.
      now destruct (pq_get_split _ _ _ Hg) as (Hmax1 & _).
    + cbn [_run_loop].
      erewrite bind_Returned
        by (rewrite runner_pass_unfold, Hg, Hv; reflexivity).
      cbv beta iota. rewrite Hrun. cbn [store_results foldl task_id return_values
                           number_of_threads stop_threads].
      unfold store_result at 2. now rewrite Hv.
Qed.



(** ** What [get_return_value] leaves alone *)

Lemma poll_frame (tid : Z) (timeout : float) (sched : list (list action)) :
  forall (timer : float) (p : pool),
  exists k,
    (k <= length sched)%nat
    /\ (fst (poll tid timeout timer sched p) = after_sleeps k sched p
        \/ fst (poll tid timeout timer sched p)
           = set_return_values
               (delete tid (return_values (after_sleeps k sched p)))
               (after_sleeps k sched p)).
Proof.
  induction sched as [|others sched IH]; intros timer p; rewrite poll_unfold;
    (destruct (return_values p !! tid) as [v|];
     [|exists 0%nat; split; [lia|now left]]);
    (destruct (py_eq v IN_PROGRESS);
     [|exists 0%nat; split; [lia|now right]]).
  - exists 0%nat. split; [lia|now left].
  - destruct (timeout <? timer + tick)%float.
    + exists 1%nat. split; [cbn; lia|]. left. now rewrite after_sleeps_S.
    + destruct (IH (timer + tick)%float (run_actions others p))
        as (k & Hk & H).
      exists (S k). split; [cbn; lia|]. now rewrite after_sleeps_S.
Qed.

(** X17.  Whatever the pool, the identifier, the timeout and the other
    threads do, a call of [get_return_value] does nothing to the pool but,
    at most, remove the entry of its own identifier: the pool it leaves is
    the one the other threads produced during some of its sleeps, with or
    without that entry.  It never touches the counter, the queue, the stop
    flag or another entry. *)
Theorem get_return_value_frame (p : pool) (tid : Z) (timeout : option float)
    (sched : list (list action)) :
  exists k,
    (k <= length sched)%nat
    /\ (fst (get_return_value tid timeout sched p) = after_sleeps k sched p
        \/ fst (get_return_value tid timeout sched p)
           = set_return_values
               (delete tid (return_values (after_sleeps k sched p)))
               (after_sleeps k sched p)).
Proof. apply poll_frame. Qed.


(** * Calls of [execute] that interleave *)

(** ** A call on which no other thread intrudes *)

Lemma call_step_AtTuple (func : callable) (args : list pyval)
    (priority : option pyval) (kwargs : list (string * pyval)) (p : pool) :
  call_step (AtTuple func args priority kwargs) p
  = match rank_of (default (PStr "normal") priority) with
    | Some r => (p, AtPut (mk_task r (task_id p) func args kwargs))
    | None => (p, CallRaised (ValueError priority_error))
    end.
Proof.
  cbn [call_step]. rewrite to_numeric_priority_rank_of.
  now destruct (rank_of _).
Qed.

Lemma call_step_AtPut (t : task) (p : pool) :
  call_step (AtPut t) p
  = if pq_full (task_queue p) then (p, AtPut t)
    else (set_task_queue
            (mk_queue (maxsize (task_queue p)) (entries (task_queue p) ++ [t])) p,
          AtMark).
Proof. cbn [call_step]. unfold pq_put. now destruct (pq_full _). Qed.

Lemma call_run_S (n : nat) (c : call) (p : pool) :
  call_run (S n) c p = call_run n (call_step c p).2 (call_step c p).1.
Proof. cbn [call_run]. now destruct (call_step c p). Qed.

Lemma call_run_blocked (n : nat) (t : task) (p : pool) :
  pq_full (task_queue p) = true -> call_run n (AtPut t) p = (p, AtPut t).
Proof.
  intros Hfull. induction n as [|n IH]; [reflexivity|].
  now rewrite call_run_S, call_step_AtPut, Hfull.
Qed.

(** The seven accesses of a call in a row are [execute]. *)
Lemma uninterrupted_call (func : callable) (args : list pyval)
    (priority : option pyval) (kwargs : list (string * pyval)) (p : pool) :
  match execute func args priority kwargs p with
  | (p', Returned i) =>
      call_run 7 (AtCheck func args priority kwargs) p = (p', CallReturned i)
  | (p', Raised e) =>
      call_run 7 (AtCheck func args priority kwargs) p = (p', CallRaised e)
  | (p', Waiting) =>
      exists t, t_task_id t = task_id p'
                /\ call_run 7 (AtCheck func args priority kwargs) p = (p', AtPut t)
  end.
Proof.
  rewrite execute_unfold, call_run_S. cbn [call_step].
  destruct (stop_threads p) eqn:Hs; [reflexivity|]. cbn zeta. cbn [fst snd].
  rewrite call_run_S. cbn [call_step fst snd].
  rewrite call_run_S, call_step_AtTuple.
  destruct (rank_of _) as [r|]; [|reflexivity]. cbn [fst snd].
  destruct (pq_full (task_queue p)) eqn:Hfull.
  - eexists. split; [|now apply call_run_blocked]. reflexivity.
  - rewrite call_run_S, call_step_AtPut. cbn [task_queue set_task_id].
    rewrite Hfull. cbn.
    unfold set_return_values, set_task_queue, set_task_id. cbn. now rewrite Hs.
Qed.

(** ** Invariants of one call and of all calls *)

Section call_invariant.
Context (c : nat) (G : call -> pool -> Prop) (allowed : event -> Prop).
Hypothesis G_own :
  forall cl p, G cl p -> G (call_step cl p).2 (call_step cl p).1.
Hypothesis G_other :
  forall c' cl cl' p,
    c' <> c -> allowed (Advance c') -> G cl p -> G cl (call_step cl' p).1.
Hypothesis G_act :
  forall a cl p, allowed (Act a) -> G cl p -> G cl (step a p).

Lemma call_invariant_step (e : event) (s : system) (cl : call) :
  allowed e ->
  sys_calls s !! c = Some cl -> G cl (sys_pool s) ->
  exists cl', sys_calls (sys_step e s) !! c = Some cl'
              /\ G cl' (sys_pool (sys_step e s)).
Proof.
  intros He Hc HG. destruct e as [func args priority kwargs|c'|a];
    cbn [sys_step].
  - exists cl. cbn. split; [|assumption]. now apply lookup_app_l_Some.
  - destruct (sys_calls s !! c') as [cl'|] eqn:Hc'; [|eauto].
    destruct (call_step cl' (sys_pool s)) as [p' cl''] eqn:Hstep. cbn.
    destruct (decide (c' = c)) as [->|Hne].
    + rewrite Hc in Hc'. injection Hc' as <-. exists cl''. split.
      * apply list_lookup_insert_eq. now apply lookup_lt_Some in Hc.
      * pose proof (G_own cl (sys_pool s) HG) as H. now rewrite Hstep in H.
    + exists cl. split.
      * now rewrite list_lookup_insert_ne.
      * pose proof (G_other c' cl cl' _ Hne He HG) as H.
        now rewrite Hstep in H.
  - exists cl. cbn. split; [assumption|]. now apply G_act.
Qed.

Lemma call_invariant_run (evs : list event) :
  forall (s : system) (cl : call),
  Forall allowed evs ->
  sys_calls s !! c = Some cl -> G cl (sys_pool s) ->
  exists cl', sys_calls (run_events evs s) !! c = Some cl'
              /\ G cl' (sys_pool (run_events evs s)).
Proof.
  induction evs as [|e evs IH]; intros s cl Hall Hc HG; cbn [run_events].
  - eauto.
  - apply Forall_cons in Hall as [He Hall].
    destruct (call_invariant_step e s cl He Hc HG) as (cl1 & Hc1 & HG1).
    now apply (IH _ cl1).
Qed.
End call_invariant.

Section system_invariant.
Context (P : pool -> Prop) (C : pool -> call -> Prop).
Hypothesis C_begin :
  forall p func args priority kwargs,
    P p -> C p (AtCheck func args priority kwargs).
Hypothesis PC_call :
  forall p cl, P p -> C p cl ->
    P (call_step cl p).1
    /\ C (call_step cl p).1 (call_step cl p).2
    /\ forall cl', C p cl' -> C (call_step cl p).1 cl'.
Hypothesis PC_act :
  forall p a, P p -> P (step a p) /\ forall cl', C p cl' -> C (step a p) cl'.

Lemma system_invariant_step (e : event) (s : system) :
  P (sys_pool s) -> Forall (C (sys_pool s)) (sys_calls s) ->
  P (sys_pool (sys_step e s))
  /\ Forall (C (sys_pool (sys_step e s))) (sys_calls (sys_step e s)).
Proof.
  intros HP HC. destruct e as [func args priority kwargs|c|a]; cbn [sys_step].
  - cbn. split; [assumption|]. apply Forall_app. split; [assumption|].
    repeat constructor. now apply C_begin.
  - destruct (sys_calls s !! c) as [cl|] eqn:Hc; [|now split].
    pose proof (Forall_lookup_1 _ _ _ _ HC Hc) as Hcl.
    destruct (PC_call _ cl HP Hcl) as (HP' & Hcl' & Hothers).
    destruct (call_step cl (sys_pool s)) as [p' cl'']. cbn in *.
    split; [assumption|]. apply Forall_insert; [|assumption].
    eapply Forall_impl; [exact HC|]. exact Hothers.
  - cbn. destruct (PC_act _ a HP) as [HP' Hothers].
    split; [assumption|]. eapply Forall_impl; [exact HC|]. exact Hothers.
Qed.

Lemma system_invariant_run (evs : list event) :
  forall s : system,
  P (sys_pool s) -> Forall (C (sys_pool s)) (sys_calls s) ->
  P (sys_pool (run_events evs s))
  /\ Forall (C (sys_pool (run_events evs s))) (sys_calls (run_events evs s)).
Proof.
  induction evs as [|e evs IH]; intros s HP HC; cbn [run_events]; [now split|].
  destruct (system_invariant_step e s HP HC) as [HP' HC']. now apply IH.
Qed.
End system_invariant.

Lemma task_id_call_step (cl : call) (p : pool) :
  task_id p <= task_id (call_step cl p).1.
Proof.
  destruct cl; cbn [call_step];
    rewrite ?call_step_AtTuple, ?call_step_AtPut; cbn; try lia.
  - destruct (stop_threads p); cbn; lia.
  - rewrite to_numeric_priority_rank_of. destruct (rank_of _); cbn; lia.
  - destruct (pq_put _ _); cbn; lia.
Qed.

(** ** Bounds under any interleaving *)

Lemma call_in_range_mono (p p' : pool) (cl : call) :
  task_id p <= task_id p' -> call_in_range p cl -> call_in_range p' cl.
Proof. destruct cl; cbn; lia. Qed.

Lemma pool_in_range_counter (p : pool) (n : Z) :
  task_id p <= n -> pool_in_range p -> pool_in_range (set_task_id n p).
Proof.
  intros Hn (Hc & Hk & He). split; [cbn; lia|]. split.
  - intros k Hk'. specialize (Hk k Hk'). cbn. lia.
  - eapply Forall_impl; [exact He|]. cbn. intros. lia.
Qed.

Lemma pool_in_range_step (a : action) (p : pool) :
  pool_in_range p -> pool_in_range (step a p).
Proof.
  intros Hp. pose proof Hp as (Hc & Hk & He).
  destruct a as [func args priority kwargs| | |k]; cbn [step].
  - rewrite execute_unfold. destruct (stop_threads p); [assumption|]. cbn zeta.
    destruct (rank_of _) as [r|] eqn:Hr;
      [|apply pool_in_range_counter; [lia|assumption]].
    destruct (pq_full _); [apply pool_in_range_counter; [lia|assumption]|].
    split; [cbn; lia|]. split; cbn.
    + intros j. rewrite lookup_insert. case_decide; [lia|].
      intros Hj. specialize (Hk j Hj). lia.
    + apply Forall_app. split.
      * eapply Forall_impl; [exact He|]. cbn. intros. lia.
      * repeat constructor; cbn; try lia; now apply rank_of_range in Hr.
  - assumption.
  - rewrite runner_pass_unfold.
    destruct (pq_get (task_queue p)) as [[t q']|] eqn:Hg; [|assumption].
    destruct (pq_get_split _ _ _ Hg) as (_ & l1 & l2 & Hl & Hl').
    rewrite Hl in He. apply Forall_app in He as [He1 He2].
    apply Forall_cons in He2 as [Ht He2].
    assert (He' : Forall (fun t => 1 <= t_task_id t <= task_id p
                                   /\ 0 <= t_priority t <= 4) (entries q'))
      by (rewrite Hl'; now apply Forall_app).
    destruct (invoke t) as [v|e]; (split; [exact Hc|]); (split; [|exact He']);
      cbn; [|exact Hk].
    intros j. rewrite lookup_insert.
    destruct (decide (t_task_id t = j)) as [<-|]; [intros _; tauto|apply Hk].
  - rewrite retrieve_unfold.
    destruct (return_values p !! k) as [v|]; [|assumption].
    destruct (py_eq v IN_PROGRESS); [assumption|].
    split; [exact Hc|]. split; [|exact He]. cbn.
    intros j. rewrite lookup_delete. case_decide; [now intros [? ?]|apply Hk].
Qed.

Lemma in_range_call_step (p : pool) (cl : call) :
  pool_in_range p -> call_in_range p cl ->
  pool_in_range (call_step cl p).1
  /\ call_in_range (call_step cl p).1 (call_step cl p).2
  /\ forall cl', call_in_range p cl' -> call_in_range (call_step cl p).1 cl'.
Proof.
  intros Hp Hcl.
  assert (Hothers : forall cl', call_in_range p cl' ->
                      call_in_range (call_step cl p).1 cl')
    by (intros cl'; apply call_in_range_mono, task_id_call_step).
  split; [|split; [|exact Hothers]]; pose proof Hp as (Hc & Hk & He);
    destruct cl as [func args priority kwargs|func args priority kwargs
                   |func args priority kwargs|t| |j| |i|e];
    rewrite ?call_step_AtTuple, ?call_step_AtPut; cbn [call_step fst snd];
    cbn in Hcl; try assumption; try (cbn; lia).
  - now destruct (stop_threads p).
  - apply pool_in_range_counter; [lia|assumption].
  - now destruct (rank_of _).
  - destruct (pq_full _); [assumption|]. cbn [fst].
    split; [exact Hc|]. split; [exact Hk|]. cbn.
    apply Forall_app. split; [assumption|]. now repeat constructor.
  - split; [exact Hc|]. split; [|exact He]. cbn.
    intros k. rewrite lookup_insert. case_decide; [lia|apply Hk].
  - now destruct (stop_threads p).
  - destruct (rank_of _) as [r|] eqn:Hr; cbn; [|trivial].
    apply rank_of_range in Hr. lia.
  - destruct (pq_full _); cbn; [assumption|lia].
Qed.

Lemma in_range_run_events (n m : option Z) (evs : list event) :
  pool_in_range (sys_pool (run_events evs (new_system n m)))
  /\ Forall (call_in_range (sys_pool (run_events evs (new_system n m))))
       (sys_calls (run_events evs (new_system n m))).
Proof.
  apply (system_invariant_run pool_in_range call_in_range).
  - intros; exact I.
  - apply in_range_call_step.
  - intros p a Hp. split; [now apply pool_in_range_step|].
    intros cl. apply call_in_range_mono, task_id_step.
  - split; [cbn; lia|]. split; [|constructor].
    intros k [v Hv]. cbn in Hv. now rewrite lookup_empty in Hv.
  - constructor.
Qed.

(** X1.  However the accesses of the calls of [execute], the runner passes
    and the other method calls interleave from a new pool on: the counter
    is never negative, every key of the result store and every identifier
    of a pending task is a value the counter has had, between 1 and its
    present value, every pending task has a rank between 0 and 4, and every
    identifier a call has returned lies in that range as well. *)
Theorem interleaved_store_and_queue (n m : option Z) (evs : list event) :
  let s := run_events evs (new_system n m) in
  0 <= task_id (sys_pool s)
  /\ (forall k, is_Some (return_values (sys_pool s) !! k) ->
        1 <= k <= task_id (sys_pool s))
  /\ Forall (fun t => 1 <= t_task_id t <= task_id (sys_pool s)
                      /\ 0 <= t_priority t <= 4)
       (entries (task_queue (sys_pool s)))
  /\ (forall c i, sys_calls s !! c = Some (CallReturned i) ->
        1 <= i <= task_id (sys_pool s)).
Proof.
  intros s. destruct (in_range_run_events n m evs) as [(Hc & Hk & He) Hcalls].
  split; [exact Hc|]. split; [exact Hk|]. split; [exact He|].
  intros c i Hci. exact (Forall_lookup_1 _ _ _ _ Hcalls Hci).
Qed.

(** ** Identifiers returned by successive calls *)

Lemma above_mono (t0 : Z) (cl : call) (p p' : pool) :
  task_id p <= task_id p' -> above t0 cl p -> above t0 cl p'.
Proof. destruct cl; cbn; lia. Qed.

Lemma above_own (t0 : Z) (cl : call) (p : pool) :
  above t0 cl p -> above t0 (call_step cl p).2 (call_step cl p).1.
Proof.
  destruct cl as [func args priority kwargs|func args priority kwargs
                 |func args priority kwargs|t| |j| |i|e];
    rewrite ?call_step_AtTuple, ?call_step_AtPut; cbn [call_step fst snd];
    cbn; try lia.
  - now destruct (stop_threads p).
  - now destruct (rank_of _).
  - now destruct (pq_full _).
Qed.

Lemma above_run_events (t0 : Z) (c : nat) (evs : list event) (s : system)
    (cl : call) :
  sys_calls s !! c = Some cl -> above t0 cl (sys_pool s) ->
  exists cl', sys_calls (run_events evs s) !! c = Some cl'
              /\ above t0 cl' (sys_pool (run_events evs s)).
Proof.
  apply (call_invariant_run c (above t0) (fun _ => True)).
  - apply above_own.
  - intros c' cl0 cl' p _ _. apply above_mono, task_id_call_step.
  - intros a cl0 p _. apply above_mono, task_id_step.
  - now apply Forall_forall.
Qed.

(** C5, as the code has it.  Take any interleaving of calls of [execute],
    runner passes and other method calls from a new pool on.  If a call has
    returned [i1] and a call begun after that returns [i2], then
    [1 <= i1 < i2]: calls that follow one another return strictly increasing
    identifiers, without repeats.  A call on a new pool on which no other
    thread intrudes returns 1 when its priority is recognised, and in a run
    of such calls the identifiers returned increase strictly. *)
Theorem successive_calls_increasing (n m : option Z) (evs1 evs2 : list event)
    (func : callable) (args : list pyval) (priority : option pyval)
    (kwargs : list (string * pyval)) (c1 : nat) (i1 i2 : Z) :
  let s1 := run_events evs1 (new_system n m) in
  let c2 := length (sys_calls s1) in
  let s2 := run_events (Begin func args priority kwargs :: evs2) s1 in
  sys_calls s1 !! c1 = Some (CallReturned i1) ->
  sys_calls s2 !! c2 = Some (CallReturned i2) ->
  (1 <= i1 /\ i1 < i2)
  /\ (forall acts, StronglySorted Z.lt (submitted_ids acts (new_pool n m)))
  /\ (forall func' args' priority' kwargs',
        (call_run 7 (AtCheck func' args' priority' kwargs') (new_pool n m)).2
        = match rank_of (default (PStr "normal") priority') with
          | Some _ => CallReturned 1
          | None => CallRaised (ValueError priority_error)
          end).
Proof.
  intros s1 c2 s2 H1 H2. split; [|split].
  - destruct (in_range_run_events n m evs1) as [_ Hcalls]. fold s1 in Hcalls.
    pose proof (Forall_lookup_1 _ _ _ _ Hcalls H1) as Hi1. cbn in Hi1.
    split; [lia|].
    assert (Hc2 : sys_calls (sys_step (Begin func args priority kwargs) s1) !! c2
                  = Some (AtCheck func args priority kwargs)).
    { cbn. unfold c2. rewrite lookup_app_r by lia.
      now rewrite Nat.sub_diag. }
    destruct (above_run_events (task_id (sys_pool s1)) c2 evs2 _ _ Hc2
                ltac:(cbn; lia)) as (cl' & Hcl' & Habove).
    unfold s2 in H2. cbn [run_events] in H2. rewrite H2 in Hcl'.
    injection Hcl' as <-. cbn in Habove. lia.
  - intros acts. apply submitted_ids_above.
  - intros func' args' priority' kwargs'.
    pose proof (uninterrupted_call func' args' priority' kwargs' (new_pool n m))
      as Hrun.
    rewrite execute_unfold, pq_full_new_pool in Hrun.
    cbn -[call_run rank_of] in Hrun.
    destruct (rank_of _); now rewrite Hrun.
Qed.

Lemma successive_calls_increasing_witness :
  let evs1 := [Begin Samples.noop [] None []; Advance 0; Advance 0; Advance 0;
               Advance 0; Advance 0; Advance 0; Advance 0] in
  let evs2 := [Act RunnerPass; Advance 1; Advance 1; Advance 1; Advance 1;
               Advance 1; Advance 1; Advance 1] in
  let s1 := run_events evs1 (new_system None None) in
  let s2 := run_events (Begin Samples.add [PInt 2; PInt 3] None [] :: evs2) s1 in
  sys_calls s1 !! 0%nat = Some (CallReturned 1)
  /\ sys_calls s2 !! 1%nat = Some (CallReturned 2)
  /\ 1 <= 1 /\ 1 < 2.
Proof.
  intros evs1 evs2 s1 s2.
  assert (H1 : sys_calls s1 !! 0%nat = Some (CallReturned 1)) by reflexivity.
  assert (H2 : sys_calls s2 !! 1%nat = Some (CallReturned 2)) by reflexivity.
  split; [exact H1|]. split; [exact H2|].
  exact (proj1 (successive_calls_increasing None None evs1 evs2 Samples.add
                  [PInt 2; PInt 3] None [] 0 1 2 H1 H2)).
Defined.

(** C5 as stated fails twice.  After a call refused for its priority the
    first call that succeeds returns 2, not 1; and of two calls that
    overlap, both incrementing before either reads the counter again, both
    return 2 and both queue a task numbered 2. *)
Lemma execute_ids_repeat :
  submitted_ids [Execute Samples.noop [] (Some (PStr "bogus")) [];
                 Execute Samples.noop [] None []] Samples.fresh = [2]
  /\ (let s := run_events
                 [Begin Samples.noop [] None []; Begin Samples.noop [] None [];
                  Advance 0; Advance 0; Advance 1; Advance 1;
                  Advance 0; Advance 0; Advance 0; Advance 0; Advance 0;
                  Advance 1; Advance 1; Advance 1; Advance 1; Advance 1]
                 (new_system None None) in
      sys_calls s = [CallReturned 2; CallReturned 2]
      /\ queue_ids (sys_pool s) = [2; 2]).
Proof. repeat split. Qed.

(** ** The entry of the identifier a call returns *)

Lemma task_id_step_other (a : action) (p : pool) :
  is_execute a = false -> task_id (step a p) = task_id p.
Proof.
  intros Ha. rewrite task_id_step_eq, Ha, andb_false_r. lia.
Qed.

Section secured_call.
Context (P : option pyval -> Prop) (c : nat) (t0 : Z)
        (allowed : event -> Prop).
Hypothesis P_marker : P (Some IN_PROGRESS).
Hypothesis allowed_undisturbed : forall e, allowed e -> undisturbed c t0 e.
Hypothesis P_act :
  forall a p key,
    allowed (Act a) -> t0 < key ->
    P (return_values p !! key) -> P (return_values (step a p) !! key).

Lemma secured_own (cl : call) (p : pool) :
  secured P t0 cl p -> secured P t0 (call_step cl p).2 (call_step cl p).1.
Proof.
  destruct cl as [func args priority kwargs|func args priority kwargs
                 |func args priority kwargs|t| |j| |i|e];
    rewrite ?call_step_AtTuple, ?call_step_AtPut; cbn [call_step fst snd];
    cbn; try lia; try tauto.
  - now destruct (stop_threads p).
  - now destruct (rank_of _).
  - now destruct (pq_full _).
  - intros [-> Hlt]. split; [assumption|]. now rewrite lookup_insert_eq.
Qed.

Lemma secured_act (a : action) (cl : call) (p : pool) :
  allowed (Act a) -> secured P t0 cl p -> secured P t0 cl (step a p).
Proof.
  intros Ha Hs.
  assert (Hid : task_id (step a p) = task_id p).
  { apply task_id_step_other. apply allowed_undisturbed in Ha.
    now destruct a. }
  destruct cl; cbn in *; rewrite ?Hid; try assumption.
  - destruct Hs as [Hlt HP]. split; [assumption|]. now apply P_act.
  - destruct Hs as [Hlt HP]. split; [assumption|]. now apply P_act.
Qed.

Lemma secured_run (evs : list event) (s : system) (cl : call) :
  Forall allowed evs ->
  sys_calls s !! c = Some cl -> secured P t0 cl (sys_pool s) ->
  exists cl', sys_calls (run_events evs s) !! c = Some cl'
              /\ secured P t0 cl' (sys_pool (run_events evs s)).
Proof.
  apply (call_invariant_run c (secured P t0) allowed).
  - apply secured_own.
  - intros c' cl0 cl' p Hne Hc'. apply allowed_undisturbed in Hc'.
    now destruct Hne.
  - apply secured_act.
Qed.
End secured_call.

Lemma entry_kept (a : action) (p : pool) (t0 key : Z) :
  undisturbed 0 t0 (Act a) -> t0 < key ->
  is_Some (return_values p !! key) ->
  is_Some (return_values (step a p) !! key).
Proof.
  intros Ha Hkey Hsome. destruct a as [func args priority kwargs| | |k];
    cbn in Ha; cbn [step]; try tauto.
  - rewrite runner_pass_unfold.
    destruct (pq_get _) as [[t q']|]; [|assumption].
    destruct (invoke t); cbn; [|assumption].
    rewrite lookup_insert. now case_decide.
  - rewrite retrieve_unfold.
    destruct (return_values p !! k) as [v|]; [|assumption].
    destruct (py_eq v IN_PROGRESS); [assumption|]. cbn.
    rewrite lookup_delete_ne; [assumption|lia].
Qed.

Lemma marker_kept (a : action) (p : pool) (t0 key : Z) :
  undisturbed 0 t0 (Act a) -> a <> RunnerPass -> t0 < key ->
  return_values p !! key = Some IN_PROGRESS ->
  return_values (step a p) !! key = Some IN_PROGRESS.
Proof.
  intros Ha Hne Hkey Hsome. destruct a as [func args priority kwargs| | |k];
    cbn in Ha; cbn [step]; try tauto.
  rewrite retrieve_unfold.
  destruct (return_values p !! k) as [v|]; [|assumption].
  destruct (py_eq v IN_PROGRESS); [assumption|]. cbn.
  rewrite lookup_delete_ne; [assumption|lia].
Qed.




(** ** An entry that has been retrieved *)

Lemma calm_mono (tid : Z) (p p' : pool) (cl : call) :
  tid <= task_id p -> task_id p <= task_id p' ->
  calm tid p cl -> calm tid p' cl.
Proof. destruct cl; cbn; lia. Qed.

Lemma gone_call_step (tid : Z) (p : pool) (cl : call) :
  (return_values p !! tid = None /\ tid <= task_id p /\ tid ∉ queue_ids p) ->
  calm tid p cl ->
  (return_values (call_step cl p).1 !! tid = None
   /\ tid <= task_id (call_step cl p).1
   /\ tid ∉ queue_ids (call_step cl p).1)
  /\ calm tid (call_step cl p).1 (call_step cl p).2
  /\ forall cl', calm tid p cl' -> calm tid (call_step cl p).1 cl'.
Proof.
  intros (Hnone & Hle & Hq) Hcl.
  assert (Hothers : forall cl', calm tid p cl' -> calm tid (call_step cl p).1 cl')
    by (intros cl'; apply calm_mono; [assumption|apply task_id_call_step]).
  split; [|split; [|exact Hothers]];
    destruct cl as [func args priority kwargs|func args priority kwargs
                   |func args priority kwargs|t| |j| |i|e];
    rewrite ?call_step_AtTuple, ?call_step_AtPut; cbn [call_step fst snd];
    cbn in Hcl; try (split; [assumption|split; assumption]);
    try (cbn; lia); try exact I.
  - now destruct (stop_threads p).
  - split; [assumption|]. split; [cbn; lia|assumption].
  - now destruct (rank_of _).
  - destruct (pq_full _); [now repeat split|]. cbn [fst].
    split; [assumption|]. split; [assumption|].
    unfold queue_ids. cbn. rewrite map_app, elem_of_app. cbn.
    rewrite list_elem_of_singleton.
    intros [?|?]; [tauto|destruct Hcl; congruence].
  - split; [|split; assumption]. cbn. now rewrite lookup_insert_ne.
  - now destruct (stop_threads p).
  - destruct (rank_of _); cbn; [split; assumption|exact I].
  - destruct (pq_full _); cbn; tauto.
Qed.

Lemma gone_step (tid : Z) (a : action) (p : pool) :
  (return_values p !! tid = None /\ tid <= task_id p /\ tid ∉ queue_ids p) ->
  return_values (step a p) !! tid = None
  /\ tid <= task_id (step a p)
  /\ tid ∉ queue_ids (step a p).
Proof.
  intros (Hnone & Hle & Hq).
  destruct a as [func args priority kwargs| | |k]; cbn [step].
  - rewrite execute_unfold. destruct (stop_threads p); [now repeat split|].
    cbn zeta. destruct (rank_of _) as [r|]; [|cbn; repeat split; [assumption|lia|assumption]].
    destruct (pq_full _); [cbn; repeat split; [assumption|lia|assumption]|].
    cbn. split; [|split; [lia|]].
    + rewrite lookup_insert_ne; [assumption|lia].
    + unfold queue_ids. cbn. rewrite map_app, elem_of_app. cbn.
      rewrite list_elem_of_singleton. intros [?|?]; [tauto|lia].
  - now repeat split.
  - rewrite runner_pass_unfold.
    destruct (pq_get (task_queue p)) as [[t q']|] eqn:Hg; [|now repeat split].
    destruct (pq_get_split _ _ _ Hg) as (_ & l1 & l2 & He & He').
    unfold queue_ids in Hq. rewrite He, map_app, elem_of_app in Hq. cbn in Hq.
    rewrite elem_of_cons in Hq.
    assert (Hq' : tid ∉ map t_task_id (entries q'))
      by (rewrite He', map_app, elem_of_app; tauto).
    destruct (invoke t) as [v|e]; cbn; (split; [|split; assumption]);
      [|assumption].
    rewrite lookup_insert_ne; [assumption|]. intros Heq. apply Hq. auto.
  - rewrite retrieve_unfold.
    destruct (return_values p !! k) as [v|]; [|now repeat split].
    destruct (py_eq v IN_PROGRESS); [now repeat split|].
    cbn. split; [|split; assumption].
    rewrite lookup_delete. now case_decide.
Qed.

Lemma gone_run_events (tid : Z) (evs : list event) (s : system) :
  return_values (sys_pool s) !! tid = None ->
  settled tid s ->
  return_values (sys_pool (run_events evs s)) !! tid = None.
Proof.
  intros Hnone (Hle & Hq & Hcalm).
  destruct (system_invariant_run
              (fun p => return_values p !! tid = None /\ tid <= task_id p
                        /\ tid ∉ queue_ids p)
              (calm tid)) with (evs := evs) (s := s) as [(H & _) _];
    try assumption.
  - intros; exact I.
  - apply gone_call_step.
  - intros p a Hp. split; [now apply gone_step|].
    intros cl. apply calm_mono; [tauto|apply task_id_step].
  - now repeat split.
Qed.




(** ** [put] on a full queue, and a runner that overtakes the marker *)

(** X3.  A call of [execute] that finds the queue full stays inside [put]
    and changes nothing while the queue is full (its increment of the
    counter has happened).  Once a runner has taken a task out of the full
    queue, the call goes on: it queues its tuple, stores the in-progress
    marker under the present value of the counter and returns that
    value. *)
Theorem blocked_put_resumes (p : pool) (t u : task) (q' : PriorityQueue)
    (v : pyval) :
  pq_full (task_queue p) = true ->
  Z.of_nat (length (entries (task_queue p))) <= maxsize (task_queue p) ->
  pq_get (task_queue p) = Some (u, q') ->
  invoke u = Returns v ->
  (forall n, call_run n (AtPut t) p = (p, AtPut t))
  /\ call_run 4 (AtPut t) (step RunnerPass p)
     = (mk_pool (task_id p)
          (mk_queue (maxsize (task_queue p)) (entries q' ++ [t]))
          (<[task_id p := IN_PROGRESS]>
             (<[t_task_id u := v]> (return_values p)))
          (number_of_threads p) (stop_threads p),
        CallReturned (task_id p)).
Proof.
  intros Hfull Hcap Hg Hv. split.
  - intros n. now apply call_run_blocked.
  - cbn [step]. rewrite runner_pass_unfold, Hg, Hv. cbn [fst].
    destruct (pq_get_split _ _ _ Hg) as (Hmax & _).
    assert (Hroom : pq_full q' = false).
    { apply pq_get_length in Hg. unfold pq_full in *.
      apply andb_true_iff in Hfull as [Hpos _].
      rewrite Hmax, Hpos. cbn. apply Z.leb_gt. lia. }
    rewrite call_run_S, call_step_AtPut. cbn [task_queue]. rewrite Hroom.
    cbn. now rewrite Hmax.
Qed.

Lemma blocked_put_resumes_witness :
  let p := step (Execute Samples.add [PInt 2; PInt 3] None [])
             (new_pool None (Some 1)) in
  let t := mk_task 1 2 Samples.noop [] [] in
  pq_full (task_queue p) = true
  /\ call_run 3 (AtPut t) p = (p, AtPut t)
  /\ (call_run 4 (AtPut t) (step RunnerPass p)).2 = CallReturned 1.
Proof.
  intros p t.
  assert (Hfull : pq_full (task_queue p) = true) by reflexivity.
  destruct (blocked_put_resumes p t (mk_task 2 1 Samples.add [PInt 2; PInt 3] [])
              (mk_queue 1 []) (PInt 5) Hfull ltac:(vm_compute; discriminate)
              eq_refl eq_refl) as [Hblocked Hresume].
  split; [exact Hfull|]. split; [apply Hblocked|]. now rewrite Hresume.
Defined.

(** X7.  When the pending tasks carry distinct identifiers, the task that
    [get] hands to a runner leaves the queue before every task that stays:
    none of them has a lower rank, and those of the same rank carry a
    higher identifier, that is, were queued by later calls.  When its
    function returns, the pass stores the value under the identifier of the
    task and changes nothing else but the queue, which loses that one task.
    On an empty queue a pass changes nothing. *)
Theorem runner_pass_takes_first (p : pool) (t : task) (q' : PriorityQueue) :
  NoDup (queue_ids p) ->
  pq_get (task_queue p) = Some (t, q') ->
  Forall (dequeued_before t) (entries q')
  /\ entries (task_queue p) ≡ₚ t :: entries q'
  /\ maxsize q' = maxsize (task_queue p)
  /\ (forall v, invoke t = Returns v ->
        runner_pass p
        = (mk_pool (task_id p) q' (<[t_task_id t := v]> (return_values p))
             (number_of_threads p) (stop_threads p),
           Returned Continue))
  /\ (forall p0, entries (task_queue p0) = [] -> fst (runner_pass p0) = p0).
Proof.
  intros Hnd Hg. split; [|split; [|split; [|split]]].
  - now apply (pq_get_first (task_queue p)).
  - now apply pq_get_perm.
  - now destruct (pq_get_split _ _ _ Hg) as (Hmax & _).
  - intros v Hv. now rewrite runner_pass_unfold, Hg, Hv.
  - intros p0 He. rewrite runner_pass_unfold.
    now rewrite (proj2 (pq_get_None _) He).
Qed.

Lemma runner_pass_takes_first_witness :
  let p := run_actions [Execute Samples.noop [] (Some (PStr "low")) [];
                        Execute Samples.noop [] (Some (PStr "high")) []]
             (new_pool None None) in
  let t := mk_task 1 2 Samples.noop [] [] in
  let q' := mk_queue 256 [mk_task 3 1 Samples.noop [] []] in
  NoDup (queue_ids p)
  /\ pq_get (task_queue p) = Some (t, q')
  /\ Forall (dequeued_before t) (entries q').
Proof.
  intros p t q'.
  assert (Hnd : NoDup (queue_ids p)).
  { apply sorted_lt_NoDup. repeat constructor. }
  assert (Hg : pq_get (task_queue p) = Some (t, q')) by reflexivity.
  split; [exact Hnd|]. split; [exact Hg|].
  exact (proj1 (runner_pass_takes_first p t q' Hnd Hg)).
Defined.

(** X9.  [put] comes before the marker.  When a runner takes the task of a
    call right after its [put] and the function returns, the call then
    stores the in-progress marker over the value the runner has stored: the
    call returns the identifier, its entry says in progress although the
    task has been executed and nothing is pending for it, and
    [get_return_value], the other threads standing still, returns the
    unfinished marker once the timer exceeds the timeout. *)
Theorem marker_overwrites_result (s : system) (c : nat) (t : task)
    (q1 q2 : PriorityQueue) (v : pyval) :
  sys_calls s !! c = Some (AtPut t) ->
  t_task_id t = task_id (sys_pool s) ->
  pq_put (task_queue (sys_pool s)) t = Some q1 ->
  pq_get q1 = Some (t, q2) ->
  invoke t = Returns v ->
  let s1 := run_events [Advance c; Act RunnerPass] s in
  let s2 := run_events [Advance c; Advance c; Advance c] s1 in
  return_values (sys_pool s1) !! t_task_id t = Some v
  /\ sys_calls s2 !! c = Some (CallReturned (t_task_id t))
  /\ task_queue (sys_pool s2) = q2
  /\ return_values (sys_pool s2) !! t_task_id t = Some IN_PROGRESS
  /\ (forall timeout n,
        (0 < n)%nat ->
        (forall k, (0 < k < n)%nat ->
           (default 86400 timeout <? timer_after k)%float = false) ->
        (default 86400 timeout <? timer_after n)%float = true ->
        get_return_value (t_task_id t) timeout (replicate n []) (sys_pool s2)
        = (sys_pool s2, Returned UNFINISHED)).
Proof.
  intros Hc Hid Hput Hg Hv s1 s2.
  assert (Hlen : (c < length (sys_calls s))%nat) by now apply lookup_lt_Some in Hc.
  assert (Hs1 : s1 = mk_system
                  (mk_pool (task_id (sys_pool s)) q2
                     (<[t_task_id t := v]> (return_values (sys_pool s)))
                     (number_of_threads (sys_pool s)) (stop_threads (sys_pool s)))
                  (<[c := AtMark]> (sys_calls s))).
  { unfold s1. cbn [run_events sys_step]. rewrite Hc. cbn [call_step].
    rewrite Hput. cbn [sys_pool sys_calls step].
    rewrite runner_pass_unfold. unfold set_task_queue. cbn.
    now rewrite Hg, Hv. }
  assert (Hs2 : s2 = mk_system
                  (mk_pool (task_id (sys_pool s)) q2
                     (<[t_task_id t := IN_PROGRESS]>
                        (<[t_task_id t := v]> (return_values (sys_pool s))))
                     (number_of_threads (sys_pool s)) (stop_threads (sys_pool s)))
                  (<[c := CallReturned (t_task_id t)]> (sys_calls s))).
  { unfold s2. rewrite Hs1. cbn [run_events sys_step sys_calls sys_pool].
    rewrite list_lookup_insert_eq by assumption. cbn [call_step sys_calls sys_pool].
    rewrite list_lookup_insert_eq by now rewrite length_insert.
    cbn [call_step sys_calls sys_pool].
    rewrite list_lookup_insert_eq by now rewrite !length_insert.
    cbn [call_step sys_calls sys_pool task_id].
    rewrite !list_insert_insert_eq, <- Hid. reflexivity. }
  assert (Hmark : return_values (sys_pool s2) !! t_task_id t = Some IN_PROGRESS)
    by (rewrite Hs2; cbn; apply lookup_insert_eq).
  split; [rewrite Hs1; cbn; apply lookup_insert_eq|].
  split; [rewrite Hs2; cbn; now apply list_lookup_insert_eq|].
  split; [now rewrite Hs2|]. split; [exact Hmark|].
  intros timeout n Hn Hnot Hout. unfold get_return_value.
  assert (Hidle : forall k, after_sleeps k (replicate n []) (sys_pool s2)
                            = sys_pool s2).
  { intros k. unfold after_sleeps.
    assert (Hnil : forall j m, concat (take j (replicate m ([] : list action))) = [])
      by (induction j as [|j IHj]; intros [|m]; cbn; auto).
    now rewrite Hnil. }
  rewrite (poll_timeout (t_task_id t) _ n (replicate n []) (sys_pool s2) 0);
    try assumption.
  - now rewrite Hidle.
  - rewrite length_replicate. lia.
  - intros k _. now rewrite Hidle.
Qed.

Lemma marker_overwrites_result_witness :
  let s := run_events
             [Begin Samples.add [PInt 2; PInt 3] None [];
              Advance 0; Advance 0; Advance 0]
             (new_system None None) in
  let t := mk_task 2 1 Samples.add [PInt 2; PInt 3] [] in
  let s1 := run_events [Advance 0; Act RunnerPass] s in
  let s2 := run_events [Advance 0; Advance 0; Advance 0] s1 in
  sys_calls s !! 0%nat = Some (AtPut t)
  /\ return_values (sys_pool s1) !! 1 = Some (PInt 5)
  /\ sys_calls s2 !! 0%nat = Some (CallReturned 1)
  /\ return_values (sys_pool s2) !! 1 = Some IN_PROGRESS.
Proof.
  intros s t s1 s2.
  assert (Hc : sys_calls s !! 0%nat = Some (AtPut t)) by reflexivity.
  destruct (marker_overwrites_result s 0 t (mk_queue 256 [t]) (mk_queue 256 [])
              (PInt 5) Hc eq_refl eq_refl eq_refl eq_refl)
    as (Hstored & Hret & _ & Hmark & _).
  split; [exact Hc|]. split; [exact Hstored|]. split; [exact Hret|exact Hmark].
Defined.
